(** * SEIR model with demography: the derivative function of [modelo.py],
      the initial-value problem it defines, and the script that integrates
      and plots it.

    [model] is written once over an interface of arithmetic operations, the
    way the Python function works for any operands that support [+], [-] and
    [*]; it is then read over the real numbers (the setting of the
    differential equations), over the rationals (exact and executable) and
    over binary64 floats (what the interpreter computes with). *)

From Stdlib Require Import Reals Lra List String ZArith QArith Qreals Floats.
From Stdlib Require Import Classical_Prop.
Import ListNotations.

Set Implicit Arguments.
#[local] Set Warnings "-inexact-float".

(** ** Arithmetic interface *)

Class Num (A : Type) : Type := {
  add : A -> A -> A;
  sub : A -> A -> A;
  mul : A -> A -> A;
  div : A -> A -> A;
  of_Z : Z -> A
}.

Declare Scope num_scope.
Delimit Scope num_scope with num.
Infix "+" := add : num_scope.
Infix "-" := sub : num_scope.
Infix "*" := mul : num_scope.
Infix "/" := div : num_scope.

#[export] Instance Num_R : Num R :=
  {| add := Rplus; sub := Rminus; mul := Rmult; div := Rdiv; of_Z := IZR |}.

#[export] Instance Num_Q : Num Q :=
  {| add := Qplus; sub := Qminus; mul := Qmult; div := Qdiv; of_Z := inject_Z |}.

(** Integer literals as binary64 values; exact for magnitudes below 2^53,
    which covers every literal of the script. *)
Definition float_of_Z (z : Z) : float :=
  match z with
  | Z0 => PrimFloat.zero
  | Zpos _ => PrimFloat.of_uint63 (Uint63.of_Z z)
  | Zneg p => PrimFloat.opp (PrimFloat.of_uint63 (Uint63.of_Z (Zpos p)))
  end.

#[export] Instance Num_float : Num float :=
  {| add := PrimFloat.add; sub := PrimFloat.sub; mul := PrimFloat.mul;
     div := PrimFloat.div; of_Z := float_of_Z |}.

(** ** Exceptions and results *)

Inductive exn : Type :=
  | ValueError (msg : string)
  | IntegrationError (msg : string).

(** The [ValueError] of unpacking a sequence of [n] items into four names
    ([n] is not 4): too few items are counted in the message, too many are
    not. *)
Definition unpack_error (n : nat) : exn :=
  match n with
  | 0%nat => ValueError "not enough values to unpack (expected 4, got 0)"
  | 1%nat => ValueError "not enough values to unpack (expected 4, got 1)"
  | 2%nat => ValueError "not enough values to unpack (expected 4, got 2)"
  | 3%nat => ValueError "not enough values to unpack (expected 4, got 3)"
  | _ => ValueError "too many values to unpack (expected 4)"
  end.

Inductive result (X : Type) : Type :=
  | Ok (x : X)
  | Raise (e : exn).
Arguments Ok {X} x.
Arguments Raise {X} e.

(** ** The derivative function (modelo.py, lines 5-52) *)

Section Model.
Context {A : Type} `{Num A}.
Local Open Scope num_scope.

(** [S, E, I, R = y] raises [ValueError] unless [y] has exactly four
    items, with the message for too few or for too many items ([s], [e],
    [i], [r] stand for the script's [S], [E], [I], [R]);
    the four right-hand sides associate as Python parses them; [t] is
    accepted and not used. *)
Definition model (y : list A) (t : A) (beta sigma gamma mu : A)
  : result (list A) :=
  match y with
  | [s; e; i; r] =>
      let dSdt := mu - beta * s * i - mu * s in
      let dEdt := beta * s * i - (sigma + mu) * e in
      let dIdt := sigma * e - (gamma + mu) * i in
      let dRdt := gamma * i - mu * r in
      Ok [dSdt; dEdt; dIdt; dRdt]
  | _ => Raise (unpack_error (List.length y))
  end.
End Model.

(** The right-hand sides as the specification writes them, over the reals:
    dS/dt, dE/dt, dI/dt, dR/dt in this order. *)
Definition spec_derivative (s e i r beta sigma gamma mu : R) : list R :=
  [ (mu - beta * s * i - mu * s)%R;
    (beta * s * i - (sigma + mu) * e)%R;
    (sigma * e - (gamma + mu) * i)%R;
    (gamma * i - mu * r)%R ].

(** ** Constants of the script (modelo.py, lines 54-67) *)

Module Script.
Section Constants.
Context {A : Type} `{Num A}.
Local Open Scope num_scope.

(** A decimal literal [n / d]; over binary64 the correctly rounded
    quotient is the value the interpreter reads from the literal. *)
Definition decimal (n d : Z) : A := of_Z n / of_Z d.

Definition beta : A := decimal 4091 10000.
Definition sigma : A := decimal 1818 10000.
Definition gamma : A := decimal 1428 10000.
Definition mu : A := decimal 25 10000.

Definition S0 : A := decimal 99991 100000.
Definition E0 : A := decimal 1 1000.
Definition I0 : A := decimal 8 100000.
Definition R0 : A := of_Z 0.

Definition y0 : list A := [S0; E0; I0; R0].

(** [np.linspace(start, stop, num)] for a non-zero step: [num] evenly
    spaced points [i * step + start], the last one set to [stop]. *)
Definition linspace (start stop : A) (num : nat) : list A :=
  match num with
  | O => []
  | S O => [start]
  | S n =>
      let step := (stop - start) / of_Z (Z.of_nat n) in
      List.map (fun i => of_Z (Z.of_nat i) * step + start) (seq 0 n)
        ++ [stop]
  end.

Definition t : list A := linspace (of_Z 0) (of_Z 200) 1000.
End Constants.
End Script.

(** ** The initial-value problem over the reals *)

Definition component (i : nat) (y : list R) : R := nth i y 0%R.

(** Sum of the components of one state vector. *)
Definition total (y : list R) : R := fold_right Rplus 0%R y.

(** S + E + I + R read off by position. *)
Definition population (y : list R) : R :=
  (component 0 y + component 1 y + component 2 y + component 3 y)%R.

(** [d] is the time derivative of the curve [y] at time [t]. *)
Definition derives (y : R -> list R) (t : R) (d : list R) : Prop :=
  forall i, (i < 4)%nat ->
    derivable_pt_lim (fun s => component i (y s)) t (component i d).

(** [y] is an exact solution on [[0, T]] of the system whose right-hand
    side is [model] called the way the integrator calls it:
    [model(y, t, beta, sigma, gamma, mu)]. *)
Definition solves (beta sigma gamma mu T : R) (y : R -> list R) : Prop :=
  forall t, (0 <= t <= T)%R ->
    exists d, model (y t) t beta sigma gamma mu = Ok d /\ derives y t d.

(** Closed-form curves used to exercise the statements below. *)

(** The disease-free equilibrium. *)
Definition equilibrium (_ : R) : list R := [1; 0; 0; 0]%R.

(** No transmission, no demography, no recovery, unit progression rate:
    the exposed move to the infectious compartment. *)
Definition relay (s0 e0 i0 : R) (t : R) : list R :=
  [ s0; e0 * exp (- t); i0 + e0 * (1 - exp (- t)); 0 ]%R.

(** Demography only: every compartment relaxes at rate [mu]. *)
Definition washout (s0 e0 i0 r0 mu : R) (t : R) : list R :=
  [ 1 + (s0 - 1) * exp (- mu * t); e0 * exp (- mu * t);
    i0 * exp (- mu * t); r0 * exp (- mu * t) ]%R.

(** ** The integration driver (modelo.py, line 70) *)

Section Integrator.
Context {A : Type} `{Num A}.

(** The adaptive-step integrator proper: its work area [W], how it is set
    up from the initial state and initial time, and one call that carries
    the solution forward to the next requested output time, returning the
    state there or signalling a failure. *)
Variable W : Type.
Variable lsoda_init : list A -> A -> W.
Variable lsoda_advance :
  (list A -> A -> result (list A)) -> W -> A -> result (W * list A).

(** Modelled from the spec: the loop of [odeint] over the requested output
    points (section 4.2); it stops at the first failure. *)
Fixpoint integrate (func : list A -> A -> result (list A)) (w : W)
  (touts : list A) : result (list (list A)) :=
  match touts with
  | [] => Ok []
  | tout :: rest =>
      match lsoda_advance func w tout with
      | Raise e => Raise e
      | Ok (w', y) =>
          match integrate func w' rest with
          | Raise e => Raise e
          | Ok rows => Ok (y :: rows)
          end
      end
  end.

(** Modelled from the spec: the body of [odeint] (scipy) is not part of
    the sources. Section 4.2: given the derivative function, the initial
    state vector and the ordered time grid, it produces one state vector
    per time-grid point by solving the initial-value problem that starts
    from the initial state at the first grid point; output is reported
    only at the requested grid points; a failure to converge is signalled
    to the caller. *)
Definition odeint (func : list A -> A -> result (list A)) (y0 : list A)
  (t : list A) : result (list (list A)) :=
  match t with
  | [] => Raise (ValueError "the time grid is empty")
  | t0 :: touts =>
      match integrate func (lsoda_init y0 t0) touts with
      | Raise e => Raise e
      | Ok rows => Ok (y0 :: rows)
      end
  end.
End Integrator.

(** ** The script as a program (modelo.py, lines 70-82) *)

Inductive event (A : Type) : Type :=
  | Plot (x y : list A) (label : string)
  | XLabel (s : string)
  | YLabel (s : string)
  | Title (s : string)
  | Legend
  | ShowFigure.
Arguments Legend {A}.
Arguments ShowFigure {A}.
Arguments XLabel {A} s.
Arguments YLabel {A} s.
Arguments Title {A} s.

(** A run: the plotting calls performed so far, and either the value
    computed or the exception that ended the run. *)
Record run (A X : Type) : Type := Run {
  trace : list (event A);
  outcome : result X
}.

Section Program.
Context {A : Type}.

Definition ret {X} (x : X) : run A X := Run [] (Ok x).

(** Statements in sequence: an exception skips everything after it. *)
Definition bind {X Y} (m : run A X) (f : X -> run A Y) : run A Y :=
  match outcome m with
  | Ok x => let r := f x in Run (trace m ++ trace r) (outcome r)
  | Raise e => Run (trace m) (Raise e)
  end.

Definition call {X} (r : result X) : run A X := Run [] r.
Definition emit (ev : event A) : run A unit := Run [ev] (Ok tt).
End Program.

Notation "x <- m ;; k" := (bind m (fun x => k))
  (at level 61, m at next level, right associativity).
Notation "m ;; k" := (bind m (fun _ => k))
  (at level 61, right associativity).

Section Main.
Context {A : Type} `{Num A}.
Variable W : Type.
Variable lsoda_init : list A -> A -> W.
Variable lsoda_advance :
  (list A -> A -> result (list A)) -> W -> A -> result (W * list A).

(** [solution.T]: one list per column of the array (the rows of an array
    all have the same length). *)
Fixpoint transpose (rows : list (list A)) : list (list A) :=
  match rows with
  | [] => []
  | row :: rest =>
      match rest with
      | [] => List.map (fun x => [x]) row
      | _ => List.map (fun p => fst p :: snd p) (combine row (transpose rest))
      end
  end.

(** [odeint(model, [S0, E0, I0, R0], t, args=(beta, sigma, gamma, mu))]. *)
Definition solution : result (list (list A)) :=
  odeint lsoda_init lsoda_advance
    (fun y t => model y t Script.beta Script.sigma Script.gamma Script.mu)
    Script.y0 Script.t.

(** Lines 74-82: the nine plotting calls, given the four series. *)
Definition plots (s e i r : list A) : run A unit :=
  emit (Plot Script.t s "Suscetíveis") ;;
  emit (Plot Script.t e "Expostos") ;;
  emit (Plot Script.t i "Infectados") ;;
  emit (Plot Script.t r "Recuperados") ;;
  emit (XLabel "Tempo") ;;
  emit (YLabel "Fração da população") ;;
  emit (Title "Modelo SEIR da Epidemiologia com Demografia") ;;
  emit Legend ;;
  emit ShowFigure.

(** Lines 70-82. [S, E, I, R = solution.T] raises [ValueError] unless the
    array has exactly four columns ([s], [e], [i], [r] stand for the
    script's [S], [E], [I], [R]). *)
Definition main : run A unit :=
  solution <- call solution ;;
  match transpose solution with
  | [s; e; i; r] => plots s e i r
  | columns => call (Raise (unpack_error (List.length columns)))
  end.
End Main.

(** Two integrators over the rationals, to run the driver on. *)

(** One explicit Euler step per output interval. *)
Definition euler_init (y0 : list Q) (t0 : Q) : list Q * Q := (y0, t0).
Definition euler_advance (func : list Q -> Q -> result (list Q))
  (w : list Q * Q) (tout : Q) : result ((list Q * Q) * list Q) :=
  let (y, t) := w in
  match func y t with
  | Raise e => Raise e
  | Ok d =>
      let y' := List.map (fun p => Qred (fst p + (tout - t) * snd p))
                  (combine y d) in
      Ok ((y', tout), y')
  end.

(** An integrator that never converges and says so by raising. *)
Definition stalled_advance (func : list Q -> Q -> result (list Q))
  (w : list Q * Q) (tout : Q) : result ((list Q * Q) * list Q) :=
  Raise (IntegrationError "excess work done on this call").

(** An integrator that never converges either, but returns: it leaves the
    solution at the time it has reached and hands back the state it has,
    as an integrator that reports the failure only through a warning
    does. *)
Definition gives_up_advance (func : list Q -> Q -> result (list Q))
  (w : list Q * Q) (tout : Q) : result ((list Q * Q) * list Q) :=
  Ok (w, fst w).

(** One explicit Euler step per output interval, for any arithmetic; it
    lets the driver and the script run in binary64. *)
Definition forward_euler_init {A : Type} (y0 : list A) (t0 : A)
  : list A * A := (y0, t0).

Definition forward_euler_advance {A : Type} `{Num A}
  (func : list A -> A -> result (list A)) (w : list A * A) (tout : A)
  : result ((list A * A) * list A) :=
  let (y, t) := w in
  match func y t with
  | Raise e => Raise e
  | Ok d =>
      let y' := List.map (fun p => (fst p + (tout - t) * snd p)%num)
                  (combine y d) in
      Ok ((y', tout), y')
  end.

(** ** Explicit integration methods over the reals *)

(** [z + c d], component by component. *)
Definition shift (z : list R) (c : R) (d : list R) : list R :=
  List.map (fun p => (fst p + c * snd p)%R) (combine z d).

(** The states an explicit method can report when it starts from [y0]:
    [y0] itself, and any state already obtained plus a multiple of a
    derivative that [func] returned at a state already obtained. Euler
    steps, the stages and results of explicit Runge-Kutta formulas, and
    multistep predictor-corrector formulas iterated by substitution are of
    this kind, for any choice of the step sizes and orders; a stage
    obtained by solving an implicit equation is not. *)
Inductive built_from (func : list R -> R -> result (list R)) (y0 : list R)
  : list R -> Prop :=
  | built_start : built_from func y0 y0
  | built_add (z p : list R) (t c : R) (d : list R) :
      built_from func y0 z -> built_from func y0 p ->
      func p t = Ok d ->
      built_from func y0 (shift z c d).

(** Modelled from the spec: the stepping routine of [odeint] is not part of
    the sources; section 9 names explicit Runge-Kutta pairs
    (Runge-Kutta-Fehlberg, Dormand-Prince) as the integrator. A stepping
    routine is explicit for [func] and [y0] when every state it reports,
    from every work area it can be in, is built from [y0] as above. *)
Definition explicit_stepper (W : Type) (lsoda_init : list R -> R -> W)
  (lsoda_advance :
     (list R -> R -> result (list R)) -> W -> R -> result (W * list R))
  (func : list R -> R -> result (list R)) (y0 : list R) : Prop :=
  exists Inv : W -> Prop,
    (forall t0, Inv (lsoda_init y0 t0)) /\
    (forall w tout w' y,
        Inv w -> lsoda_advance func w tout = Ok (w', y) ->
        Inv w' /\ built_from func y0 y).

(** Heun's two-stage explicit Runge-Kutta step, one per output interval. *)
Definition heun_advance (func : list R -> R -> result (list R))
  (w : list R * R) (tout : R) : result ((list R * R) * list R) :=
  let (y, t) := w in
  let h := (tout - t)%R in
  match func y t with
  | Raise e => Raise e
  | Ok k1 =>
      match func (shift y h k1) tout with
      | Raise e => Raise e
      | Ok k2 =>
          let y' := shift (shift y (h / 2) k1) (h / 2) k2 in
          Ok ((y', tout), y')
      end
  end.

(** ** Further notions for the derivative function *)

(** A function applied to the value of a result; an exception passes
    through. *)
Definition result_map {X Y : Type} (f : X -> Y) (r : result X) : result Y :=
  match r with
  | Ok x => Ok (f x)
  | Raise e => Raise e
  end.

(** The state at which infection persists: the susceptible fraction is
    (sigma + mu)(gamma + mu) / (beta sigma), and the other three follow
    from the last three equations of [model]. *)
Definition endemic (beta sigma gamma mu : R) : list R :=
  let s := ((sigma + mu) * (gamma + mu) / (beta * sigma))%R in
  let i := (mu * (1 - s) / (beta * s))%R in
  [ s; ((gamma + mu) * i / sigma)%R; i; (gamma * i / mu)%R ].

(** A curve read on a clock that runs [c] times faster. *)
Definition rescale (c : R) (y : R -> list R) (t : R) : list R := y (c * t)%R.

(** * Properties *)

(** ** The derivative function *)

Local Open Scope R_scope.

Example model_Q_run :
  model [1#2; 1#4; 1#8; 1#8]%Q 0%Q (2#1)%Q (1#1)%Q (1#2)%Q (1#10)%Q
  = Ok [ (1#10) - (2#1) * (1#2) * (1#8) - (1#10) * (1#2);
         (2#1) * (1#2) * (1#8) - ((1#1) + (1#10)) * (1#4);
         (1#1) * (1#4) - ((1#2) + (1#10)) * (1#8);
         (1#2) * (1#8) - (1#10) * (1#8) ]%Q.
Proof. reflexivity. Qed.

Example model_short_state :
  model [1; 2; 3] 0 1 1 1 1
  = Raise (ValueError "not enough values to unpack (expected 4, got 3)").
Proof. reflexivity. Qed.

Example model_long_state :
  model [1; 2; 3; 4; 5] 0 1 1 1 1
  = Raise (ValueError "too many values to unpack (expected 4)").
Proof. reflexivity. Qed.

Example decimal_float_literal : @Script.beta float _ = 0.4091%float.
Proof. vm_compute. reflexivity. Qed.

(** Whatever the arithmetic, a four-item state is unpacked and the four
    derivatives are returned in the order dS, dE, dI, dR. *)
Lemma model_unpack {A : Type} `{Num A} (s e i r t beta sigma gamma mu : A) :
  model [s; e; i; r] t beta sigma gamma mu =
  Ok [ (mu - beta * s * i - mu * s)%num;
       (beta * s * i - (sigma + mu) * e)%num;
       (sigma * e - (gamma + mu) * i)%num;
       (gamma * i - mu * r)%num ].
Proof. reflexivity. Qed.

(** [model] answers exactly on the lists of four items. *)
Lemma model_ok_inv {A : Type} `{Num A} (y d : list A) (t beta sigma gamma mu : A) :
  model y t beta sigma gamma mu = Ok d ->
  exists s e i r, y = [s; e; i; r] /\
    d = [ (mu - beta * s * i - mu * s)%num;
          (beta * s * i - (sigma + mu) * e)%num;
          (sigma * e - (gamma + mu) * i)%num;
          (gamma * i - mu * r)%num ].
Proof.
  destruct y as [|s [|e [|i [|r [|x y]]]]]; simpl; intros Hm;
    try discriminate Hm.
  injection Hm as <-. now exists s, e, i, r.
Qed.

(** C1: for every state (S, E, I, R), every time and all real parameters,
    [model] returns exactly the four derivatives the specification lists,
    dS/dt = mu - beta S I - mu S, dE/dt = beta S I - (sigma + mu) E,
    dI/dt = sigma E - (gamma + mu) I, dR/dt = gamma I - mu R, in this
    order. *)
Theorem model_returns_spec_derivative (s e i r t beta sigma gamma mu : R) :
  model [s; e; i; r] t beta sigma gamma mu =
  Ok (spec_derivative s e i r beta sigma gamma mu).
Proof. rewrite model_unpack. reflexivity. Qed.

(** C6: [model] is time-invariant: on any state (well-formed or not) and
    any parameters, two calls that differ only in the time argument give
    the same result. *)
Theorem model_time_invariant {A : Type} `{Num A}
  (y : list A) (t1 t2 beta sigma gamma mu : A) :
  model y t1 beta sigma gamma mu = model y t2 beta sigma gamma mu.
Proof.
  destruct y as [|s [|e [|i [|r [|x y]]]]]; reflexivity.
Qed.

(** ** Calculus on an interval *)

Lemma derivable_pt_lim_ext (f g : R -> R) (x l : R) :
  (forall s, f s = g s) -> derivable_pt_lim f x l -> derivable_pt_lim g x l.
Proof.
  intros Hfg Hf eps Heps. destruct (Hf eps Heps) as [delta Hd].
  exists delta. intros h Hh Hlt. rewrite <- !Hfg. now apply Hd.
Qed.

Lemma derivable_pt_lim_value (f : R -> R) (x l l' : R) :
  l = l' -> derivable_pt_lim f x l -> derivable_pt_lim f x l'.
Proof. now intros ->. Qed.

Lemma derivable_pt_lim_exp_lin (k x : R) :
  derivable_pt_lim (fun s => exp (k * s)) x (k * exp (k * x)).
Proof.
  apply derivable_pt_lim_ext with (f := comp exp (mult_real_fct k id)).
  - intros s. reflexivity.
  - apply derivable_pt_lim_value with (l := exp (k * x) * (k * 1)).
    + ring.
    + apply derivable_pt_lim_comp.
      * apply derivable_pt_lim_scal. apply derivable_pt_lim_id.
      * apply derivable_pt_lim_exp.
Qed.

Lemma derivable_pt_lim_cst (c x : R) : derivable_pt_lim (fun _ => c) x 0.
Proof. exact (derivable_pt_lim_const c x). Qed.

(** A function whose derivative is non-positive on [[a, b]] does not
    increase from [a] to [b]. *)
Lemma nonpos_derivative_le (f f' : R -> R) (a b : R) :
  a <= b ->
  (forall c, a <= c <= b -> derivable_pt_lim f c (f' c)) ->
  (forall c, a <= c <= b -> f' c <= 0) ->
  f b <= f a.
Proof.
  intros [Hab | ->] Hd Hneg; [| lra].
  destruct (MVT_cor2 f f' a b Hab Hd) as [c [Heq Hc]].
  assert (f' c <= 0) by (apply Hneg; lra). nra.
Qed.

Lemma nonneg_derivative_le (f f' : R -> R) (a b : R) :
  a <= b ->
  (forall c, a <= c <= b -> derivable_pt_lim f c (f' c)) ->
  (forall c, a <= c <= b -> 0 <= f' c) ->
  f a <= f b.
Proof.
  intros [Hab | ->] Hd Hpos; [| lra].
  destruct (MVT_cor2 f f' a b Hab Hd) as [c [Heq Hc]].
  assert (0 <= f' c) by (apply Hpos; lra). nra.
Qed.

Lemma zero_derivative_eq (f : R -> R) (a b : R) :
  a <= b ->
  (forall c, a <= c <= b -> derivable_pt_lim f c 0) ->
  f b = f a.
Proof.
  intros Hab Hd. apply Rle_antisym.
  - apply nonpos_derivative_le with (f' := fun _ => 0); auto. intros; lra.
  - apply nonneg_derivative_le with (f' := fun _ => 0); auto. intros; lra.
Qed.

(** The integrating factor: [f' = g - k f] makes [f(s) exp(k s)] have
    derivative [g(s) exp(k s)]. *)
Lemma integrating_factor (f : R -> R) (k x l : R) :
  derivable_pt_lim f x l ->
  derivable_pt_lim (fun s => f s * exp (k * s)) x ((l + k * f x) * exp (k * x)).
Proof.
  intros Hf.
  apply derivable_pt_lim_value
    with (l := l * exp (k * x) + f x * (k * exp (k * x))); [ring |].
  apply (derivable_pt_lim_mult f (fun s => exp (k * s))); auto.
  apply derivable_pt_lim_exp_lin.
Qed.

(** Linear decay: [f' = - k f] on [[a, b]] gives
    [f b = f a * exp (- k (b - a))]. *)
Lemma linear_decay (f : R -> R) (k a b : R) :
  a <= b ->
  (forall c, a <= c <= b -> derivable_pt_lim f c (- k * f c)) ->
  f b = f a * exp (- k * (b - a)).
Proof.
  intros Hab Hd.
  assert (Hg : f b * exp (k * b) = f a * exp (k * a)).
  { apply zero_derivative_eq with (f := fun s => f s * exp (k * s)); auto.
    intros c Hc.
    apply derivable_pt_lim_value with (l := (- k * f c + k * f c) * exp (k * c));
      [ring |].
    apply integrating_factor. now apply Hd. }
  replace (- k * (b - a)) with (k * a + - (k * b)) by ring.
  rewrite exp_plus, exp_Ropp, <- Rmult_assoc, <- Hg.
  field. apply Rgt_not_eq, exp_pos.
Qed.

(** A compartment with a non-negative inflow and a linear outflow stays
    non-negative. *)
Lemma inflow_nonneg (f g : R -> R) (k T : R) :
  (forall c, 0 <= c <= T -> derivable_pt_lim f c (g c - k * f c)) ->
  (forall c, 0 <= c <= T -> 0 <= g c) ->
  0 <= f 0 ->
  forall t, 0 <= t <= T -> 0 <= f t.
Proof.
  intros Hd Hg H0 t Ht.
  assert (Hle : f 0 * exp (k * 0) <= f t * exp (k * t)).
  { apply nonneg_derivative_le with (f := fun s => f s * exp (k * s))
             (f' := fun s => g s * exp (k * s)); [lra | |].
    - intros c Hc.
      apply derivable_pt_lim_value
        with (l := (g c - k * f c + k * f c) * exp (k * c)); [ring |].
      apply integrating_factor. apply Hd. lra.
    - intros c Hc. apply Rmult_le_pos; [apply Hg; lra | left; apply exp_pos]. }
  rewrite Rmult_0_r, exp_0, Rmult_1_r in Hle.
  pose proof (exp_pos (k * t)) as Hp.
  destruct (Rle_or_lt 0 (f t)) as [|Hneg]; [assumption | nra].
Qed.

Lemma exp_le_mono (x y : R) : x <= y -> exp x <= exp y.
Proof.
  intros [Hlt | ->]; [left; now apply exp_increasing | right; reflexivity].
Qed.

(** ** Exact solutions of the system *)

Lemma total_four (s e i r : R) : total [s; e; i; r] = s + e + i + r.
Proof. unfold total; simpl. ring. Qed.

Lemma population_four (s e i r : R) : population [s; e; i; r] = s + e + i + r.
Proof. reflexivity. Qed.

(** Along a solution every state has four components, and each component
    has the derivative [model] returns for it. *)
Lemma solves_inv (beta sigma gamma mu T : R) (y : R -> list R) (t : R) :
  solves beta sigma gamma mu T y -> 0 <= t <= T ->
  let s := component 0 (y t) in
  let e := component 1 (y t) in
  let i := component 2 (y t) in
  let r := component 3 (y t) in
  y t = [s; e; i; r] /\
  derivable_pt_lim (fun u => component 0 (y u)) t (mu - beta * s * i - mu * s) /\
  derivable_pt_lim (fun u => component 1 (y u)) t (beta * s * i - (sigma + mu) * e) /\
  derivable_pt_lim (fun u => component 2 (y u)) t (sigma * e - (gamma + mu) * i) /\
  derivable_pt_lim (fun u => component 3 (y u)) t (gamma * i - mu * r).
Proof.
  intros Hsol Ht. destruct (Hsol t Ht) as [d [Hm Hd]].
  destruct (model_ok_inv _ _ _ _ _ _ Hm) as (s & e & i & r & Hy & ->).
  rewrite Hy. cbn. split; [reflexivity |].
  repeat split.
  - exact (Hd 0%nat ltac:(repeat constructor)).
  - exact (Hd 1%nat ltac:(repeat constructor)).
  - exact (Hd 2%nat ltac:(repeat constructor)).
  - exact (Hd 3%nat ltac:(repeat constructor)).
Qed.

Lemma solves_total (beta sigma gamma mu T : R) (y : R -> list R) (t : R) :
  solves beta sigma gamma mu T y -> 0 <= t <= T ->
  total (y t) = population (y t).
Proof.
  intros Hsol Ht. destruct (solves_inv Hsol Ht) as [Hy _].
  rewrite Hy at 1. rewrite total_four. reflexivity.
Qed.

(** The derivatives returned at a state add up to [mu * (1 - N)], where
    [N] is the sum of the state's components. *)
Lemma model_total (s e i r t beta sigma gamma mu : R) (d : list R) :
  model [s; e; i; r] t beta sigma gamma mu = Ok d ->
  total d = mu * (1 - total [s; e; i; r]).
Proof.
  rewrite model_unpack. intros Hd. injection Hd as <-.
  rewrite !total_four. cbn. ring.
Qed.

(** Along a solution the population obeys [N' = mu (1 - N)]. *)
Lemma population_derivative (beta sigma gamma mu T : R) (y : R -> list R) (t : R) :
  solves beta sigma gamma mu T y -> 0 <= t <= T ->
  derivable_pt_lim (fun u => population (y u)) t (mu * (1 - population (y t))).
Proof.
  intros Hsol Ht.
  destruct (solves_inv Hsol Ht) as (_ & HS & HE & HI & HR).
  unfold population.
  eapply derivable_pt_lim_value;
    [| exact (derivable_pt_lim_plus _ _ _ _ _
               (derivable_pt_lim_plus _ _ _ _ _
                 (derivable_pt_lim_plus _ _ _ _ _ HS HE) HI) HR)].
  ring.
Qed.

(** Hence it relaxes exponentially to 1. *)
Lemma population_relaxes (beta sigma gamma mu T : R) (y : R -> list R) (t : R) :
  solves beta sigma gamma mu T y -> 0 <= t <= T ->
  total (y t) = 1 + (total (y 0) - 1) * exp (- mu * t).
Proof.
  intros Hsol Ht.
  rewrite (solves_total Hsol Ht), (solves_total Hsol (t := 0)) by lra.
  pose proof (@linear_decay (fun u => population (y u) - 1) mu 0 t) as Hdecay.
  cbv beta in Hdecay. rewrite Rminus_0_r in Hdecay.
  rewrite <- Hdecay; [ring | lra |].
  intros c Hc.
  apply derivable_pt_lim_value with (l := mu * (1 - population (y c)) - 0);
    [ring |].
  apply (derivable_pt_lim_minus (fun u => population (y u)) (fun _ => 1)).
  - apply (population_derivative Hsol). lra.
  - apply derivable_pt_lim_cst.
Qed.

(** ** Closed-form solutions *)

Lemma affine_exp_derivative (a c k x : R) :
  derivable_pt_lim (fun u => a + c * exp (k * u)) x (c * (k * exp (k * x))).
Proof.
  apply derivable_pt_lim_value with (l := 0 + c * (k * exp (k * x))); [ring |].
  apply (derivable_pt_lim_plus (fun _ => a) (fun u => c * exp (k * u))).
  - apply derivable_pt_lim_cst.
  - apply (derivable_pt_lim_scal (fun u => exp (k * u)) c).
    apply derivable_pt_lim_exp_lin.
Qed.

(** A curve [a + c exp(k u)] presented in another form, with the value its
    derivative is expected to have. *)
Lemma affine_exp_curve (a c k : R) (f : R -> R) (x l : R) :
  (forall u, f u = a + c * exp (k * u)) ->
  l = c * (k * exp (k * x)) ->
  derivable_pt_lim f x l.
Proof.
  intros Hf ->.
  apply derivable_pt_lim_ext with (f := fun u => a + c * exp (k * u)).
  - intros u. symmetry. apply Hf.
  - apply affine_exp_derivative.
Qed.

Lemma constant_curve (a : R) (f : R -> R) (x l : R) :
  (forall u, f u = a) -> l = 0 -> derivable_pt_lim f x l.
Proof.
  intros Hf ->.
  apply derivable_pt_lim_ext with (f := fun _ => a).
  - intros u. symmetry. apply Hf.
  - apply derivable_pt_lim_cst.
Qed.

Lemma exp_opp_lin (u : R) : exp (- u) = exp (-1 * u).
Proof. f_equal. ring. Qed.

Ltac curve_components :=
  let t := fresh "t" in
  let i := fresh "i" in
  let Hi := fresh "Hi" in
  intros t _; eexists; split; [apply model_unpack |];
  intros i Hi;
  destruct i as [| [| [| [| i]]]]; cbn [component nth];
  [ | | | | exfalso; repeat apply PeanoNat.lt_S_n in Hi; inversion Hi ].

(** The disease-free equilibrium solves the system for all parameters. *)
Lemma equilibrium_solves (beta sigma gamma mu T : R) :
  solves beta sigma gamma mu T equilibrium.
Proof.
  unfold solves, equilibrium. curve_components.
  - apply constant_curve with (a := 1); [reflexivity | cbn; ring].
  - apply constant_curve with (a := 0); [reflexivity | cbn; ring].
  - apply constant_curve with (a := 0); [reflexivity | cbn; ring].
  - apply constant_curve with (a := 0); [reflexivity | cbn; ring].
Qed.

(** With every rate zero, standing still is a solution. *)
Lemma constant_solves (s e i r T : R) :
  solves 0 0 0 0 T (fun _ => [s; e; i; r]).
Proof.
  unfold solves. curve_components.
  - apply constant_curve with (a := s); [reflexivity | cbn; ring].
  - apply constant_curve with (a := e); [reflexivity | cbn; ring].
  - apply constant_curve with (a := i); [reflexivity | cbn; ring].
  - apply constant_curve with (a := r); [reflexivity | cbn; ring].
Qed.

Lemma relay_solves (s0 e0 i0 T : R) : solves 0 1 0 0 T (relay s0 e0 i0).
Proof.
  unfold solves, relay. curve_components.
  - apply constant_curve with (a := s0); [reflexivity | cbn; ring].
  - apply affine_exp_curve with (a := 0) (c := e0) (k := -1).
    + intros u. rewrite exp_opp_lin. ring.
    + cbn. rewrite exp_opp_lin. ring.
  - apply affine_exp_curve with (a := i0 + e0) (c := - e0) (k := -1).
    + intros u. rewrite exp_opp_lin. ring.
    + cbn. rewrite exp_opp_lin. ring.
  - apply constant_curve with (a := 0); [reflexivity | cbn; ring].
Qed.

Lemma washout_solves (s0 e0 i0 r0 mu T : R) :
  solves 0 0 0 mu T (washout s0 e0 i0 r0 mu).
Proof.
  unfold solves, washout. curve_components.
  - apply affine_exp_curve with (a := 1) (c := s0 - 1) (k := - mu).
    + intros u. ring.
    + cbn. ring.
  - apply affine_exp_curve with (a := 0) (c := e0) (k := - mu).
    + intros u. ring.
    + cbn. ring.
  - apply affine_exp_curve with (a := 0) (c := i0) (k := - mu).
    + intros u. ring.
    + cbn. ring.
  - apply affine_exp_curve with (a := 0) (c := r0) (k := - mu).
    + intros u. ring.
    + cbn. ring.
Qed.

(** With no infection present the susceptible fraction relaxes to 1 and
    the removed one decays, whatever the other rates. *)
Lemma washout_no_infection_solves (s0 r0 beta sigma gamma mu T : R) :
  solves beta sigma gamma mu T (washout s0 0 0 r0 mu).
Proof.
  unfold solves, washout. curve_components.
  - apply affine_exp_curve with (a := 1) (c := s0 - 1) (k := - mu).
    + intros u. ring.
    + cbn. ring.
  - apply constant_curve with (a := 0); [intros u; ring | cbn; ring].
  - apply constant_curve with (a := 0); [intros u; ring | cbn; ring].
  - apply affine_exp_curve with (a := 0) (c := r0) (k := - mu).
    + intros u. ring.
    + cbn. ring.
Qed.

(** ** Explicit stepping routines in the driver *)

Lemma total_shift (a b c d k a' b' c' d' : R) :
  total (shift [a; b; c; d] k [a'; b'; c'; d'])
  = total [a; b; c; d] + k * total [a'; b'; c'; d'].
Proof. unfold shift. cbn [combine List.map fst snd]. rewrite !total_four. ring. Qed.

Lemma integrate_built (W : Type)
  (lsoda_advance :
     (list R -> R -> result (list R)) -> W -> R -> result (W * list R))
  (func : list R -> R -> result (list R)) (y0 : list R) (Inv : W -> Prop) :
  (forall w tout w' y,
      Inv w -> lsoda_advance func w tout = Ok (w', y) ->
      Inv w' /\ built_from func y0 y) ->
  forall touts w rows,
    Inv w -> integrate lsoda_advance func w touts = Ok rows ->
    Forall (built_from func y0) rows.
Proof.
  intros Hstep. induction touts as [| tout rest IH]; intros w rows Hw; simpl.
  - intros Hok. injection Hok as <-. constructor.
  - destruct (lsoda_advance func w tout) as [[w' y] | e] eqn:Hadv;
      [| discriminate].
    destruct (Hstep w tout w' y Hw Hadv) as [Hw' Hy].
    destruct (integrate lsoda_advance func w' rest) as [rows' | e] eqn:Hrest;
      [| discriminate].
    intros Hok. injection Hok as <-. constructor; [exact Hy |].
    exact (IH w' rows' Hw' Hrest).
Qed.

(** Every row the driver returns for an explicit stepping routine is built
    from the initial state. *)
Lemma odeint_built (W : Type) (lsoda_init : list R -> R -> W)
  (lsoda_advance :
     (list R -> R -> result (list R)) -> W -> R -> result (W * list R))
  (func : list R -> R -> result (list R)) (y0 : list R) (t : list R)
  (rows : list (list R)) :
  explicit_stepper lsoda_init lsoda_advance func y0 ->
  odeint lsoda_init lsoda_advance func y0 t = Ok rows ->
  Forall (built_from func y0) rows.
Proof.
  intros (Inv & Hinit & Hstep) Hok.
  destruct t as [| t0 touts]; [discriminate Hok |]. simpl in Hok.
  destruct (integrate lsoda_advance func (lsoda_init y0 t0) touts)
    as [rows' | e] eqn:Hint; [| discriminate Hok].
  injection Hok as <-. constructor; [constructor |].
  eapply integrate_built; [exact Hstep | apply Hinit | exact Hint].
Qed.

Lemma forward_euler_explicit (func : list R -> R -> result (list R))
  (y0 : list R) :
  explicit_stepper forward_euler_init forward_euler_advance func y0.
Proof.
  exists (fun w => built_from func y0 (fst w)). split.
  - intros t0. constructor.
  - intros [y t] tout w' y' Hy Hadv. simpl in Hy.
    unfold forward_euler_advance in Hadv.
    destruct (func y t) as [d | e] eqn:Hd; [| discriminate Hadv].
    injection Hadv as <- <-. simpl.
    assert (Hb : built_from func y0 (shift y (tout - t) d))
      by (eapply built_add; [exact Hy | exact Hy | exact Hd]).
    split; exact Hb.
Qed.

Lemma heun_explicit (func : list R -> R -> result (list R)) (y0 : list R) :
  explicit_stepper forward_euler_init heun_advance func y0.
Proof.
  exists (fun w => built_from func y0 (fst w)). split.
  - intros t0. constructor.
  - intros [y t] tout w' y' Hy Hadv. simpl in Hy.
    unfold heun_advance in Hadv.
    destruct (func y t) as [k1 | e] eqn:Hk1; [| discriminate Hadv].
    destruct (func (shift y (tout - t) k1) tout) as [k2 | e] eqn:Hk2;
      [| discriminate Hadv].
    injection Hadv as <- <-. simpl.
    assert (Hp : built_from func y0 (shift y (tout - t) k1))
      by (eapply built_add; [exact Hy | exact Hy | exact Hk1]).
    assert (Hz : built_from func y0 (shift y ((tout - t) / 2) k1))
      by (eapply built_add; [exact Hy | exact Hy | exact Hk1]).
    assert (Hb : built_from func y0
              (shift (shift y ((tout - t) / 2) k1) ((tout - t) / 2) k2))
      by (eapply built_add; [exact Hz | exact Hp | exact Hk2]).
    split; exact Hb.
Qed.

(** On the system of [model], Euler steps from a state of four components
    never fail: the integration returns a row for every grid point. *)
Lemma forward_euler_returns (beta sigma gamma mu s e i r t0 : R)
  (touts : list R) :
  exists rows,
    odeint forward_euler_init forward_euler_advance
      (fun y t => model y t beta sigma gamma mu) [s; e; i; r] (t0 :: touts)
    = Ok rows.
Proof.
  assert (Hint : forall touts y t, List.length y = 4%nat ->
            exists rows,
              integrate forward_euler_advance
                (fun y t => model y t beta sigma gamma mu) (y, t) touts
              = Ok rows).
  { clear. induction touts as [| tout rest IH]; intros y t Hlen; simpl.
    - now exists [].
    - destruct y as [| a [| b [| c [| d [| x y]]]]]; try discriminate Hlen.
      rewrite model_unpack. cbn [combine List.map].
      match goal with
      | |- context [integrate _ _ (?y', _) rest] =>
          destruct (IH y' tout eq_refl) as [rows ->]
      end.
      eexists. reflexivity. }
  simpl. unfold forward_euler_init.
  destruct (Hint touts [s; e; i; r] t0 eq_refl) as [rows ->].
  eexists. reflexivity.
Qed.

(** States built from a state of sum 1 by the system of [model] have sum
    1: each derivative added has sum mu (1 - 1) = 0. *)
Lemma built_from_total (beta sigma gamma mu : R) (y0 z : list R) :
  total y0 = 1 ->
  built_from (fun y t => model y t beta sigma gamma mu) y0 z ->
  total z = 1 /\ List.length z = List.length y0.
Proof.
  intros H0 Hb.
  induction Hb as [| z p t c d Hz [IHz Lz] Hp [IHp Lp] Hd].
  - split; [exact H0 | reflexivity].
  - cbv beta in Hd.
    destruct (model_ok_inv _ _ _ _ _ _ Hd) as (s & e & i & r & -> & Hdd).
    pose proof (model_total Hd) as Htot. rewrite IHp in Htot.
    rewrite <- Lp in Lz. simpl in Lz.
    destruct z as [| a [| b [| c' [| d' [| x z]]]]]; try discriminate Lz.
    rewrite Hdd in Htot |- *. rewrite total_shift, IHz, Htot.
    split; [ring |]. rewrite <- Lp. reflexivity.
Qed.

(** With all rates zero the only state built from [y0] is [y0]. *)
Lemma built_from_zero_rates (y0 z : list R) :
  built_from (fun y t => model y t 0 0 0 0) y0 z -> z = y0.
Proof.
  intros Hb. induction Hb as [| z p t c d Hz IHz Hp IHp Hd];
    [reflexivity |].
  subst z p. cbv beta in Hd.
  destruct (model_ok_inv _ _ _ _ _ _ Hd) as (s & e & i & r & -> & ->).
  unfold shift. cbn. repeat f_equal; ring.
Qed.

(** ** Conservation of the population *)

(** C2: for every state whose components sum to 1 and all parameters
    (non-negative or not), the four derivatives returned by [model] sum to
    zero; hence the sum 1 is an invariant of the continuous system (every
    exact solution that starts with sum 1 keeps sum 1), and every row of
    the trajectory the integration step returns for an explicit stepping
    routine has sum 1 in real arithmetic, so it is within every tolerance
    of 1; with Euler steps the integration step does return a
    trajectory. *)
Theorem population_one_invariant (beta sigma gamma mu : R) :
  (forall s e i r t d,
      total [s; e; i; r] = 1 ->
      model [s; e; i; r] t beta sigma gamma mu = Ok d ->
      total d = 0) /\
  (forall T y,
      solves beta sigma gamma mu T y -> total (y 0) = 1 ->
      forall t, 0 <= t <= T -> total (y t) = 1) /\
  (forall (W : Type) (lsoda_init : list R -> R -> W)
          (lsoda_advance :
             (list R -> R -> result (list R)) -> W -> R ->
             result (W * list R))
          (y0 t : list R) (rows : list (list R)),
      explicit_stepper lsoda_init lsoda_advance
        (fun y t => model y t beta sigma gamma mu) y0 ->
      total y0 = 1 ->
      odeint lsoda_init lsoda_advance
        (fun y t => model y t beta sigma gamma mu) y0 t = Ok rows ->
      Forall (fun row => total row = 1
                         /\ Rabs (total row - 1) <= 1 / 1000000) rows) /\
  (forall s e i r t0 touts,
      exists rows,
        odeint forward_euler_init forward_euler_advance
          (fun y t => model y t beta sigma gamma mu) [s; e; i; r]
          (t0 :: touts) = Ok rows).
Proof.
  split; [| split; [| split]].
  - intros s e i r t d Hsum Hd.
    rewrite (model_total Hd), Hsum. ring.
  - intros T y Hsol H0 t Ht.
    rewrite (population_relaxes Hsol Ht), H0. ring.
  - intros W lsoda_init lsoda_advance y0 t rows Hexp H0 Hok.
    assert (Hb : Forall (built_from
                           (fun y t => model y t beta sigma gamma mu) y0) rows)
      by (eapply odeint_built; [exact Hexp | exact Hok]).
    apply Forall_impl with (2 := Hb).
    intros row Hrow.
    destruct (@built_from_total beta sigma gamma mu y0 row H0 Hrow)
      as [Hone _].
    split; [exact Hone |]. rewrite Hone.
    replace (1 - 1) with 0 by ring. rewrite Rabs_R0. lra.
  - intros s e i r t0 touts. apply forward_euler_returns.
Qed.

Lemma population_one_invariant_witness :
  total [1/2; 1/4; 1/4; 0] = 1 /\
  (forall d,
      model [1/2; 1/4; 1/4; 0] 0 Script.beta Script.sigma Script.gamma
        Script.mu = Ok d -> total d = 0) /\
  solves Script.beta Script.sigma Script.gamma Script.mu 200
    (washout (1/2) 0 0 (1/2) Script.mu) /\
  total (washout (1/2) 0 0 (1/2) Script.mu 200) = 1 /\
  (exists rows,
      odeint forward_euler_init forward_euler_advance
        (fun y t => model y t Script.beta Script.sigma Script.gamma
                      Script.mu)
        [1/2; 1/4; 1/4; 0] [0; 100; 200] = Ok rows /\
      Forall (fun row => total row = 1
                         /\ Rabs (total row - 1) <= 1 / 1000000) rows) /\
  (forall rows,
      odeint forward_euler_init heun_advance
        (fun y t => model y t Script.beta Script.sigma Script.gamma
                      Script.mu)
        [1/2; 1/4; 1/4; 0] [0; 100; 200] = Ok rows ->
      Forall (fun row => total row = 1
                         /\ Rabs (total row - 1) <= 1 / 1000000) rows).
Proof.
  assert (Hsum : total [1/2; 1/4; 1/4; 0] = 1) by (rewrite total_four; lra).
  destruct (population_one_invariant (@Script.beta R _) (@Script.sigma R _)
              (@Script.gamma R _) (@Script.mu R _))
    as (Hd & Ht & Hrows & Hruns).
  split; [exact Hsum |]. split; [| split; [| split; [| split]]].
  - intros d. apply Hd. exact Hsum.
  - apply washout_no_infection_solves.
  - apply (Ht 200 (washout (1/2) 0 0 (1/2) Script.mu)
             (@washout_no_infection_solves _ _ _ _ _ _ _)).
    + unfold washout. rewrite total_four, Rmult_0_r, exp_0. lra.
    + lra.
  - destruct (Hruns (1/2) (1/4) (1/4) 0 0 [100; 200]) as [rows Hok].
    exists rows. split; [exact Hok |].
    exact (Hrows _ forward_euler_init forward_euler_advance _ _ rows
             (forward_euler_explicit _ _) Hsum Hok).
  - intros rows Hok.
    exact (Hrows _ forward_euler_init heun_advance _ _ rows
             (heun_explicit _ _) Hsum Hok).
Defined.

(** In binary64 the cancellation is only approximate: at the state
    (0.25, 0.25, 0.25, 0.25), whose components sum to exactly 1, the four
    derivatives computed with the script's rates add up to about -6.9e-18
    instead of 0. *)
Example derivative_sum_binary64 :
  match model [0.25; 0.25; 0.25; 0.25]%float 0%float
          Script.beta Script.sigma Script.gamma Script.mu with
  | Ok d =>
      let sum := fold_left PrimFloat.add d 0%float in
      (PrimFloat.ltb sum 0%float
       && PrimFloat.ltb (PrimFloat.abs sum) 0x1p-50%float)%bool
  | Raise _ => false
  end = true.
Proof. vm_compute. reflexivity. Qed.

(** Euler steps in binary64 over the script's grid, from a state of sum 1
    and with the script's rates: the 1000 row sums are not all exactly 1,
    and all are within 1e-6 of 1. *)
Example euler_binary64_sum_within_tolerance :
  match odeint forward_euler_init forward_euler_advance
          (fun y t => model y t (@Script.beta float _) Script.sigma
                        Script.gamma Script.mu)
          [0.99991; 0.00001; 0.00008; 0]%float Script.t with
  | Ok rows =>
      let sum row := fold_left PrimFloat.add row 0%float in
      (Nat.eqb (List.length rows) 1000
       && forallb (fun row =>
            PrimFloat.leb (PrimFloat.abs (PrimFloat.sub (sum row) 1)) 1e-6)
            rows
       && negb (forallb (fun row => PrimFloat.eqb (sum row) 1) rows))%bool
  | Raise _ => false
  end = true.
Proof. vm_compute. reflexivity. Qed.

(** ** All rates zero *)

(** C5: when beta, sigma, gamma and mu are all zero, [model] returns the
    zero vector at every state, and the resulting trajectory is constant:
    every exact solution stays at its initial state, and every row the
    integration step returns for an explicit stepping routine equals the
    initial condition; with Euler steps the integration step does return
    a trajectory. *)
Theorem zero_rates_constant :
  (forall s e i r t, model [s; e; i; r] t 0 0 0 0 = Ok [0; 0; 0; 0]) /\
  (forall T y, solves 0 0 0 0 T y ->
     forall t, 0 <= t <= T -> y t = y 0) /\
  (forall (W : Type) (lsoda_init : list R -> R -> W)
          (lsoda_advance :
             (list R -> R -> result (list R)) -> W -> R ->
             result (W * list R))
          (y0 t : list R) (rows : list (list R)),
      explicit_stepper lsoda_init lsoda_advance
        (fun y t => model y t 0 0 0 0) y0 ->
      odeint lsoda_init lsoda_advance (fun y t => model y t 0 0 0 0) y0 t
        = Ok rows ->
      Forall (fun row => row = y0) rows) /\
  (forall s e i r t0 touts,
      exists rows,
        odeint forward_euler_init forward_euler_advance
          (fun y t => model y t 0 0 0 0) [s; e; i; r] (t0 :: touts)
        = Ok rows).
Proof.
  assert (Hconst : forall T y, solves 0 0 0 0 T y ->
     forall t, 0 <= t <= T -> y t = y 0).
  { intros T y Hsol t Ht.
    assert (Hstill : forall i, (i < 4)%nat ->
              component i (y t) = component i (y 0)).
    { intros i Hi.
      apply zero_derivative_eq with (f := fun u => component i (y u));
        [lra |].
      intros c Hc.
      assert (Hc' : 0 <= c <= T) by lra.
      destruct (solves_inv Hsol Hc') as (_ & HS & HE & HI & HR).
      destruct i as [| [| [| [| i]]]].
      - eapply derivable_pt_lim_value; [| exact HS]. ring.
      - eapply derivable_pt_lim_value; [| exact HE]. ring.
      - eapply derivable_pt_lim_value; [| exact HI]. ring.
      - eapply derivable_pt_lim_value; [| exact HR]. ring.
      - exfalso. repeat apply PeanoNat.lt_S_n in Hi. inversion Hi. }
    assert (H0 : 0 <= 0 <= T) by lra.
    destruct (solves_inv Hsol Ht) as [Hyt _].
    destruct (solves_inv Hsol H0) as [Hy0 _].
    rewrite Hyt, Hy0.
    rewrite !Hstill by (repeat constructor). reflexivity. }
  split; [| split; [| split]].
  - intros s e i r t. rewrite model_unpack. cbn.
    repeat f_equal; ring.
  - exact Hconst.
  - intros W lsoda_init lsoda_advance y0 t rows Hexp Hok.
    assert (Hb : Forall (built_from (fun y t => model y t 0 0 0 0) y0) rows)
      by (eapply odeint_built; [exact Hexp | exact Hok]).
    apply Forall_impl with (2 := Hb).
    intros row Hrow. exact (built_from_zero_rates Hrow).
  - intros s e i r t0 touts. apply forward_euler_returns.
Qed.

Lemma zero_rates_constant_witness :
  solves 0 0 0 0 200 (fun _ : R => @Script.y0 R _) /\
  (exists rows,
      odeint forward_euler_init forward_euler_advance
        (fun y t => model y t 0 0 0 0) (@Script.y0 R _) [0; 100; 200]
      = Ok rows /\
      Forall (fun row => row = @Script.y0 R _) rows) /\
  (forall rows,
      odeint forward_euler_init heun_advance
        (fun y t => model y t 0 0 0 0) (@Script.y0 R _) [0; 100; 200]
      = Ok rows ->
      Forall (fun row => row = @Script.y0 R _) rows).
Proof.
  destruct zero_rates_constant as (_ & _ & Hrows & Hruns).
  split; [apply constant_solves |]. split.
  - destruct (Hruns (@Script.S0 R _) (@Script.E0 R _) (@Script.I0 R _)
                (@Script.R0 R _) 0 [100; 200]) as [rows Hok].
    exists rows. split; [exact Hok |].
    exact (Hrows _ forward_euler_init forward_euler_advance _ _ rows
             (forward_euler_explicit _ _) Hok).
  - intros rows Hok.
    exact (Hrows _ forward_euler_init heun_advance _ _ rows
             (heun_explicit _ _) Hok).
Defined.

Example zero_rates_binary64 :
  model (@Script.y0 float _) 0%float 0%float 0%float 0%float 0%float
  = Ok [0%float; 0%float; 0%float; 0%float].
Proof. vm_compute. reflexivity. Qed.

(** ** No transmission *)

(** With beta = 0 the infectious compartment is still fed by the exposed
    one: at the script's own initial state and rates, with beta set to 0,
    dI/dt is positive. *)
Example no_transmission_script_state :
  exists d,
    model Script.y0 0 0 Script.sigma Script.gamma Script.mu = Ok d /\
    component 2 d = 170176 / 1000000000 /\ 0 < component 2 d.
Proof.
  eexists. split; [apply model_unpack |].
  cbn. unfold Script.sigma, Script.gamma, Script.mu, Script.E0, Script.I0,
    Script.decimal. cbn. split; lra.
Qed.

(** The claim of C3 fails for I: with beta = 0, sigma = 1, gamma = mu = 0
    and the non-negative initial state (0, 1, 0, 0), [model] returns
    dI/dt = 1 > 0 at the initial state, and along the exact solution
    [relay 0 1 0] the I component at time 1 exceeds its value at time 0. *)
Lemma no_transmission_infected_grows :
  solves 0 1 0 0 1 (relay 0 1 0) /\
  relay 0 1 0 0 = [0; 1; 0; 0] /\
  (exists d, model [0; 1; 0; 0] 0 0 1 0 0 = Ok d /\ component 2 d = 1) /\
  component 2 (relay 0 1 0 0) < component 2 (relay 0 1 0 1).
Proof.
  assert (He : exp (Ropp 1) < 1).
  { pose proof (exp_increasing (Ropp 1) 0) as Hinc.
    rewrite exp_0 in Hinc. apply Hinc. lra. }
  split; [apply relay_solves |]. split; [| split].
  - unfold relay. rewrite Ropp_0, exp_0. repeat f_equal; ring.
  - eexists. split; [apply model_unpack |]. cbn. ring.
  - unfold relay. cbn. rewrite Ropp_0, exp_0. lra.
Qed.

(** C3, amended: with beta = 0 and non-negative sigma, gamma, mu, at every
    non-negative state dE/dt <= 0 and dE/dt + dI/dt <= 0; and along every
    exact solution that starts from a non-negative state, E is
    non-increasing over time and so is E + I. *)
Theorem no_transmission_exposed_decays (sigma gamma mu : R) :
  0 <= sigma -> 0 <= gamma -> 0 <= mu ->
  (forall s e i r t d,
      0 <= s -> 0 <= e -> 0 <= i -> 0 <= r ->
      model [s; e; i; r] t 0 sigma gamma mu = Ok d ->
      component 1 d <= 0 /\ component 1 d + component 2 d <= 0) /\
  (forall T y,
      solves 0 sigma gamma mu T y ->
      Forall (fun v => 0 <= v) (y 0) ->
      forall t1 t2, 0 <= t1 -> t1 <= t2 -> t2 <= T ->
        component 1 (y t2) <= component 1 (y t1) /\
        component 1 (y t2) + component 2 (y t2)
          <= component 1 (y t1) + component 2 (y t1)).
Proof.
  intros Hsigma Hgamma Hmu. split.
  - intros s e i r t d Hs He Hi Hr Hd.
    rewrite model_unpack in Hd. injection Hd as <-. cbn. split; nra.
  - intros T y Hsol Hpos t1 t2 H1 H12 H2.
    assert (H0 : 0 <= 0 <= T) by lra.
    destruct (solves_inv Hsol H0) as [Hy0 _].
    rewrite Hy0 in Hpos.
    assert (HE0 : 0 <= component 1 (y 0)).
    { inversion Hpos as [| ? ? _ Hpos1]. now inversion Hpos1. }
    assert (HI0 : 0 <= component 2 (y 0)).
    { inversion Hpos as [| ? ? _ Hpos1]. inversion Hpos1 as [| ? ? _ Hpos2].
      now inversion Hpos2. }
    (* E' = - (sigma + mu) E on [0, T] *)
    assert (HdE : forall c, 0 <= c <= T ->
              derivable_pt_lim (fun u => component 1 (y u)) c
                (- (sigma + mu) * component 1 (y c))).
    { intros c Hc. destruct (solves_inv Hsol Hc) as (_ & _ & HE & _).
      eapply derivable_pt_lim_value; [| exact HE]. ring. }
    assert (HE : forall a b, 0 <= a -> a <= b -> b <= T ->
              component 1 (y b)
              = component 1 (y a) * exp (- (sigma + mu) * (b - a))).
    { intros a b Ha Hab Hb.
      apply linear_decay with (f := fun u => component 1 (y u)); [lra |].
      intros c Hc. apply HdE. lra. }
    assert (HEpos : forall c, 0 <= c <= T -> 0 <= component 1 (y c)).
    { intros c Hc. rewrite (HE 0 c) by lra.
      apply Rmult_le_pos; [assumption | left; apply exp_pos]. }
    assert (HIpos : forall c, 0 <= c <= T -> 0 <= component 2 (y c)).
    { apply inflow_nonneg
        with (f := fun u => component 2 (y u))
             (g := fun u => sigma * component 1 (y u)) (k := gamma + mu).
      - intros c Hc. destruct (solves_inv Hsol Hc) as (_ & _ & _ & HI & _).
        exact HI.
      - intros c Hc. apply Rmult_le_pos; [assumption | now apply HEpos].
      - exact HI0. }
    split.
    + rewrite (HE t1 t2) by lra.
      assert (Hexp : exp (- (sigma + mu) * (t2 - t1)) <= 1).
      { rewrite <- exp_0. apply exp_le_mono. nra. }
      assert (0 <= component 1 (y t1)) by (apply HEpos; lra).
      nra.
    + apply nonpos_derivative_le
        with (f := fun u => component 1 (y u) + component 2 (y u))
             (f' := fun u => - mu * component 1 (y u)
                             - (gamma + mu) * component 2 (y u));
        [lra | |].
      * intros c Hc. assert (Hc' : 0 <= c <= T) by lra.
        destruct (solves_inv Hsol Hc') as (_ & _ & HEc & HIc & _).
        eapply derivable_pt_lim_value;
          [| exact (derivable_pt_lim_plus _ _ _ _ _ HEc HIc)].
        ring.
      * intros c Hc.
        assert (0 <= component 1 (y c)) by (apply HEpos; lra).
        assert (0 <= component 2 (y c)) by (apply HIpos; lra).
        nra.
Qed.

Lemma no_transmission_exposed_decays_witness :
  solves 0 1 0 0 200 (relay 0 1 0) /\
  Forall (fun v => 0 <= v) (relay 0 1 0 0) /\
  component 1 (relay 0 1 0 200) <= component 1 (relay 0 1 0 1) /\
  component 1 (relay 0 1 0 200) + component 2 (relay 0 1 0 200)
    <= component 1 (relay 0 1 0 1) + component 2 (relay 0 1 0 1).
Proof.
  assert (Hsol : solves 0 1 0 0 200 (relay 0 1 0)) by apply relay_solves.
  assert (Hpos : Forall (fun v => 0 <= v) (relay 0 1 0 0)).
  { unfold relay. rewrite Ropp_0, exp_0. repeat constructor; lra. }
  split; [exact Hsol |]. split; [exact Hpos |].
  destruct (@no_transmission_exposed_decays 1 0 0) as [_ Htraj]; [lra .. |].
  apply (Htraj 200 (relay 0 1 0) Hsol Hpos 1 200); lra.
Defined.

(** ** The script's initial state *)

Lemma script_y0_total : total (@Script.y0 R _) = 1.00099.
Proof.
  unfold Script.y0, Script.S0, Script.E0, Script.I0, Script.R0, Script.decimal.
  rewrite total_four. cbn. lra.
Qed.

(** The same sum in exact rational arithmetic, by evaluation. *)
Example script_y0_total_Q :
  Qred (fold_right Qplus 0%Q (@Script.y0 Q _)) = (100099 # 100000)%Q.
Proof. vm_compute. reflexivity. Qed.

(** In binary64, adding the four components left to right also gives a
    value above 1. *)
Example script_y0_total_binary64 :
  PrimFloat.ltb 1%float
    (fold_left PrimFloat.add (@Script.y0 float _) 0%float) = true.
Proof. vm_compute. reflexivity. Qed.

(** The sum of C10 is not conserved: at the script's initial state and
    rates the four derivatives returned by [model] add up to
    mu * (1 - 1.00099) = -0.000002475, which is not zero. *)
Lemma script_population_not_conserved :
  exists d,
    model Script.y0 0 Script.beta Script.sigma Script.gamma Script.mu = Ok d /\
    total d = - 0.000002475 /\ total d <> 0.
Proof.
  eexists. split; [apply model_unpack |].
  rewrite total_four.
  unfold Script.beta, Script.sigma, Script.gamma, Script.mu,
    Script.S0, Script.E0, Script.I0, Script.R0, Script.decimal. cbn.
  split; lra.
Qed.

Lemma washout_script_start :
  washout Script.S0 Script.E0 Script.I0 Script.R0 Script.mu 0 = Script.y0.
Proof.
  unfold washout, Script.y0. rewrite Rmult_0_r, exp_0.
  repeat f_equal; ring.
Qed.

(** C10, amended: the script's initial components sum to 1.00099, which is
    greater than 1, so the trajectory does not start with sum 1; along
    every exact solution with the script's mu = 0.0025 that starts from
    the script's initial state (whatever beta, sigma and gamma) the sum is
    1 + 0.00099 exp(-0.0025 t): it is not conserved at 1.00099 but stays
    above 1 and, after time 0, below 1.00099. *)
Theorem script_population_relaxes :
  total (@Script.y0 R _) = 1.00099 /\
  1 < total (@Script.y0 R _) /\
  (forall beta sigma gamma T y,
      solves beta sigma gamma Script.mu T y -> y 0 = Script.y0 ->
      forall t, 0 <= t <= T ->
        total (y t) = 1 + 0.00099 * exp (- 0.0025 * t) /\
        1 < total (y t) /\
        (0 < t -> total (y t) < 1.00099)).
Proof.
  pose proof script_y0_total as Hsum.
  split; [exact Hsum |]. split; [rewrite Hsum; lra |].
  intros beta sigma gamma T y Hsol Hy0 t Ht.
  assert (Hrel : total (y t) = 1 + 0.00099 * exp (- 0.0025 * t)).
  { rewrite (population_relaxes Hsol Ht), Hy0, Hsum.
    unfold Script.mu, Script.decimal. cbn.
    replace (- (25 / 10000) * t) with (- 0.0025 * t) by lra. lra. }
  pose proof (exp_pos (- 0.0025 * t)) as Hpos.
  split; [exact Hrel |]. split; [lra |].
  intros Hlt.
  assert (Hexp : exp (- 0.0025 * t) < 1).
  { pose proof (exp_increasing (- 0.0025 * t) 0) as Hinc.
    rewrite exp_0 in Hinc. apply Hinc. lra. }
  lra.
Qed.

Lemma script_population_relaxes_witness :
  solves 0 0 0 Script.mu 200
    (washout Script.S0 Script.E0 Script.I0 Script.R0 Script.mu) /\
  total (washout Script.S0 Script.E0 Script.I0 Script.R0 Script.mu 200)
    = 1 + 0.00099 * exp (- 0.0025 * 200) /\
  total (washout Script.S0 Script.E0 Script.I0 Script.R0 Script.mu 200)
    < 1.00099.
Proof.
  assert (Hsol : solves 0 0 0 Script.mu 200
            (washout Script.S0 Script.E0 Script.I0 Script.R0 Script.mu))
    by apply washout_solves.
  split; [exact Hsol |].
  destruct script_population_relaxes as (_ & _ & Hrel).
  destruct (Hrel 0 0 0 200 _ Hsol washout_script_start 200) as (Heq & _ & Hlt);
    [lra |].
  split; [exact Heq | apply Hlt; lra].
Defined.

(** ** The integration driver *)

Section IntegratorFacts.
Context {A : Type} `{Num A}.
Variable W : Type.
Variable lsoda_init : list A -> A -> W.
Variable lsoda_advance :
  (list A -> A -> result (list A)) -> W -> A -> result (W * list A).

Lemma integrate_length func w touts rows :
  integrate lsoda_advance func w touts = Ok rows ->
  List.length rows = List.length touts.
Proof.
  revert w rows. induction touts as [| tout rest IH]; intros w rows; simpl.
  - intros Hok. injection Hok as <-. reflexivity.
  - destruct (lsoda_advance func w tout) as [[w' y] | e]; [| discriminate].
    destruct (integrate lsoda_advance func w' rest) as [rows' | e] eqn:Hrest;
      [| discriminate].
    intros Hok. injection Hok as <-. simpl. f_equal. eapply IH, Hrest.
Qed.

(** One state vector per point of the time grid. *)
Lemma odeint_length func y0 t traj :
  odeint lsoda_init lsoda_advance func y0 t = Ok traj ->
  List.length traj = List.length t.
Proof.
  destruct t as [| t0 touts]; simpl; [discriminate |].
  destruct (integrate lsoda_advance func (lsoda_init y0 t0) touts)
    as [rows | e] eqn:Hint; [| discriminate].
  intros Hok. injection Hok as <-. simpl. f_equal.
  eapply integrate_length, Hint.
Qed.

(** A step that fails, after any number of steps that succeed, makes the
    whole integration fail with the same error. *)
Lemma integrate_failure func e touts1 tout touts2 :
  forall w rows1,
    integrate lsoda_advance func w touts1 = Ok rows1 ->
    (forall w0, lsoda_advance func w0 tout = Raise e) ->
    integrate lsoda_advance func w (touts1 ++ tout :: touts2) = Raise e.
Proof.
  induction touts1 as [| t1 rest IH]; intros w rows1 Hok Hfail; simpl.
  - now rewrite Hfail.
  - simpl in Hok.
    destruct (lsoda_advance func w t1) as [[w1 y] | e1]; [| discriminate].
    destruct (integrate lsoda_advance func w1 rest) as [rows' | e1] eqn:Hrest;
      [| discriminate].
    now rewrite (IH w1 rows' Hrest Hfail).
Qed.

(** As long as every step from a state the integrator can be in converges,
    the integration returns a row for every output point. *)
Lemma integrate_converges func (Inv : W -> Prop) :
  (forall w tout, Inv w ->
     exists w' y, lsoda_advance func w tout = Ok (w', y) /\ Inv w') ->
  forall touts w, Inv w ->
    exists rows, integrate lsoda_advance func w touts = Ok rows.
Proof.
  intros Hstep. induction touts as [| tout rest IH]; intros w Hw; simpl.
  - now exists [].
  - destruct (Hstep w tout Hw) as (w' & y & -> & Hw').
    destruct (IH w' Hw') as [rows ->]. now exists (y :: rows).
Qed.
End IntegratorFacts.

(** C7: for every initial state and every time grid whose first point is
    t = 0, the first state vector of the trajectory the integration step
    returns is the given initial condition (exactly, hence within any
    tolerance); and a trajectory is returned whenever the steps of the
    integrator converge from every state it can be in. *)
Theorem odeint_first_row {A : Type} `{Num A} (W : Type)
  (lsoda_init : list A -> A -> W)
  (lsoda_advance :
     (list A -> A -> result (list A)) -> W -> A -> result (W * list A))
  (func : list A -> A -> result (list A)) (y0 : list A) (t : list A) :
  hd_error t = Some (of_Z 0) ->
  (forall traj,
      odeint lsoda_init lsoda_advance func y0 t = Ok traj ->
      hd_error traj = Some y0) /\
  (forall Inv : W -> Prop,
      (forall t0, Inv (lsoda_init y0 t0)) ->
      (forall w tout, Inv w ->
         exists w' y, lsoda_advance func w tout = Ok (w', y) /\ Inv w') ->
      exists traj,
        odeint lsoda_init lsoda_advance func y0 t = Ok traj /\
        hd_error traj = Some y0).
Proof.
  intros Hhd. destruct t as [| t0 touts]; [discriminate Hhd |].
  split.
  - intros traj Hok. simpl in Hok.
    destruct (integrate lsoda_advance func (lsoda_init y0 t0) touts)
      as [rows | e]; [| discriminate Hok].
    injection Hok as <-. reflexivity.
  - intros Inv Hinit Hstep.
    assert (Hconv : exists rows,
              integrate lsoda_advance func (lsoda_init y0 t0) touts = Ok rows).
    { eapply integrate_converges; [exact Hstep | apply Hinit]. }
    destruct Hconv as [rows Hrows].
    exists (y0 :: rows). simpl. rewrite Hrows. split; reflexivity.
Qed.

(** Euler steps on the script's system keep four components and never
    fail. *)
Lemma euler_model_step (beta sigma gamma mu : Q) (w : list Q * Q) (tout : Q) :
  List.length (fst w) = 4%nat ->
  exists w' y,
    euler_advance (fun y t => model y t beta sigma gamma mu) w tout
      = Ok (w', y) /\
    List.length (fst w') = 4%nat.
Proof.
  destruct w as [y t]. simpl fst.
  destruct y as [| a [| b [| c [| d [| x y]]]]]; try discriminate.
  intros _. do 2 eexists. split; reflexivity.
Qed.

Lemma odeint_first_row_witness :
  (exists traj,
     odeint euler_init euler_advance
       (fun y t => model y t Script.beta Script.sigma Script.gamma Script.mu)
       Script.y0 [0; 1; 2]%Q = Ok traj /\
     hd_error traj = Some Script.y0) /\
  hd_error
    (match odeint euler_init euler_advance
             (fun y t => model y t Script.beta Script.sigma Script.gamma
                           Script.mu)
             Script.y0 [0; 1; 2]%Q with
     | Ok traj => traj
     | Raise _ => []
     end) = Some Script.y0.
Proof.
  destruct (@odeint_first_row Q Num_Q _ euler_init euler_advance
              (fun y t => model y t Script.beta Script.sigma Script.gamma
                            Script.mu)
              Script.y0 [0; 1; 2]%Q ltac:(reflexivity)) as [Hfirst Hruns].
  split.
  - apply (Hruns (fun w => List.length (fst w) = 4%nat)).
    + intros t0. reflexivity.
    + intros w tout. apply euler_model_step.
  - apply Hfirst. vm_compute. reflexivity.
Defined.

(** The script's own grid starts at 0, has 1000 points and ends at 200. *)
Lemma script_grid_length {A : Type} `{Num A} : List.length (@Script.t A _) = 1000%nat.
Proof.
  unfold Script.t, Script.linspace.
  rewrite length_app, length_map, length_seq. reflexivity.
Qed.

Lemma script_grid_first : hd_error (@Script.t R _) = Some 0.
Proof.
  unfold Script.t, Script.linspace.
  change (seq 0 999) with (0%nat :: seq 1 998).
  cbn [List.map app hd_error]. f_equal. cbn. lra.
Qed.

Example script_grid_first_binary64 :
  hd_error (@Script.t float _) = Some 0%float.
Proof. vm_compute. reflexivity. Qed.

Example script_grid_last_binary64 :
  last (@Script.t float _) 0%float = 200%float.
Proof. vm_compute. reflexivity. Qed.

(** ** The script *)

Section MainFacts.
Context {A : Type} `{Num A}.
Variable W : Type.
Variable lsoda_init : list A -> A -> W.
Variable lsoda_advance :
  (list A -> A -> result (list A)) -> W -> A -> result (W * list A).

(** The plotting calls, in the order of the script. *)
Lemma plots_run (s e i r : list A) :
  plots s e i r =
  Run [ Plot Script.t s "Suscetíveis";
        Plot Script.t e "Expostos";
        Plot Script.t i "Infectados";
        Plot Script.t r "Recuperados";
        XLabel "Tempo";
        YLabel "Fração da população";
        Title "Modelo SEIR da Epidemiologia com Demografia";
        Legend;
        ShowFigure ] (Ok tt).
Proof. reflexivity. Qed.

(** When the integration returns an array of four columns, the script
    plots them. *)
Lemma main_plots rows s e i r :
  solution lsoda_init lsoda_advance = Ok rows ->
  transpose rows = [s; e; i; r] ->
  main lsoda_init lsoda_advance = plots s e i r.
Proof.
  intros Hok Htr. unfold main, bind, call. cbn [outcome trace].
  rewrite Hok, Htr. reflexivity.
Qed.

(** When it returns an array that does not have four columns, line 72
    raises and nothing is plotted. *)
Lemma main_unpack_failure rows :
  solution lsoda_init lsoda_advance = Ok rows ->
  List.length (transpose rows) <> 4%nat ->
  main lsoda_init lsoda_advance
  = Run [] (Raise (unpack_error (List.length (transpose rows)))).
Proof.
  intros Hok Hlen. unfold main, bind, call. cbn [outcome trace].
  rewrite Hok.
  destruct (transpose rows) as [| s [| e [| i [| r [| x l]]]]];
    try reflexivity.
  exfalso. apply Hlen. reflexivity.
Qed.

(** A stepping routine that raises makes the integration call of the
    script raise: the driver has no handler either. *)
Lemma solution_failure e :
  (forall func w tout, lsoda_advance func w tout = Raise e) ->
  solution lsoda_init lsoda_advance = Raise e.
Proof.
  intros Hfail. unfold solution, Script.t, Script.linspace, odeint.
  change (seq 0 999) with (0%nat :: 1%nat :: seq 2 997).
  cbn [List.map app integrate]. now rewrite Hfail.
Qed.
End MainFacts.

(** The claim of C9 fails for an integrator that cannot converge but
    returns: [gives_up_advance] never carries the solution beyond the time
    it is at and raises nothing; the integration call then returns 1000
    copies of the initial state and the script performs its nine plotting
    calls and ends normally. *)
Lemma nonconvergence_returned_is_plotted :
  (forall func y t tout,
      gives_up_advance func (y, t) tout = Ok ((y, t), y)) /\
  solution euler_init gives_up_advance = Ok (repeat Script.y0 1000) /\
  main euler_init gives_up_advance
  = plots (repeat Script.S0 1000) (repeat Script.E0 1000)
      (repeat Script.I0 1000) (repeat Script.R0 1000) /\
  outcome (main euler_init gives_up_advance) = Ok tt /\
  List.length (trace (main euler_init gives_up_advance)) = 9%nat.
Proof.
  split; [reflexivity |].
  split; [vm_compute; reflexivity |].
  split; [vm_compute; reflexivity |].
  split; vm_compute; reflexivity.
Qed.

(** C9, amended: the script has no handler and no retry around the
    integration call, and what happens next is decided by how the call
    ends. If it raises (as it does when the stepping routine raises), the
    error is the outcome of the run and no plotting call is performed. If
    it returns an array of four columns, whether or not the integrator
    converged, the script performs its nine plotting calls and ends
    normally. *)
Theorem integration_outcome_decides_run {A : Type} `{Num A} (W : Type)
  (lsoda_init : list A -> A -> W)
  (lsoda_advance :
     (list A -> A -> result (list A)) -> W -> A -> result (W * list A)) :
  (forall e,
      solution lsoda_init lsoda_advance = Raise e ->
      outcome (main lsoda_init lsoda_advance) = Raise e /\
      trace (main lsoda_init lsoda_advance) = []) /\
  (forall e,
      (forall func w tout, lsoda_advance func w tout = Raise e) ->
      outcome (main lsoda_init lsoda_advance) = Raise e /\
      trace (main lsoda_init lsoda_advance) = []) /\
  (forall rows s e i r,
      solution lsoda_init lsoda_advance = Ok rows ->
      transpose rows = [s; e; i; r] ->
      outcome (main lsoda_init lsoda_advance) = Ok tt /\
      trace (main lsoda_init lsoda_advance)
      = [ Plot Script.t s "Suscetíveis";
          Plot Script.t e "Expostos";
          Plot Script.t i "Infectados";
          Plot Script.t r "Recuperados";
          XLabel "Tempo";
          YLabel "Fração da população";
          Title "Modelo SEIR da Epidemiologia com Demografia";
          Legend;
          ShowFigure ]).
Proof.
  assert (Hraise : forall e,
      solution lsoda_init lsoda_advance = Raise e ->
      outcome (main lsoda_init lsoda_advance) = Raise e /\
      trace (main lsoda_init lsoda_advance) = []).
  { intros e Hfail. unfold main, bind, call. cbn [outcome trace].
    rewrite Hfail. split; reflexivity. }
  split; [exact Hraise |]. split.
  - intros e Hstep. apply Hraise.
    eapply solution_failure. exact Hstep.
  - intros rows s e i r Hok Htr.
    rewrite (main_plots _ _ Hok Htr), plots_run. split; reflexivity.
Qed.

Lemma integration_outcome_decides_run_witness :
  (solution euler_init stalled_advance
     = Raise (IntegrationError "excess work done on this call") /\
   outcome (main euler_init stalled_advance)
     = Raise (IntegrationError "excess work done on this call") /\
   trace (main euler_init stalled_advance) = []) /\
  (solution euler_init gives_up_advance = Ok (repeat Script.y0 1000) /\
   outcome (main euler_init gives_up_advance) = Ok tt /\
   List.length (trace (main euler_init gives_up_advance)) = 9%nat).
Proof.
  assert (Hfail : solution euler_init stalled_advance
            = Raise (IntegrationError "excess work done on this call")).
  { vm_compute. reflexivity. }
  assert (Hok : solution euler_init gives_up_advance
                = Ok (repeat Script.y0 1000)).
  { vm_compute. reflexivity. }
  destruct (@integration_outcome_decides_run Q _ _ euler_init stalled_advance)
    as (Hraise & _ & _).
  destruct (@integration_outcome_decides_run Q _ _ euler_init gives_up_advance)
    as (_ & _ & Hplots).
  split.
  - split; [exact Hfail |]. exact (Hraise _ Hfail).
  - split; [exact Hok |].
    destruct (Hplots _ (repeat Script.S0 1000) (repeat Script.E0 1000)
                (repeat Script.I0 1000) (repeat Script.R0 1000) Hok)
      as [Hout Htrace].
    + vm_compute. reflexivity.
    + split; [exact Hout |]. rewrite Htrace. reflexivity.
Defined.

(** ** The script's run at its first sample *)

(** The initial state lies in the unit interval, and there the script's
    rates make S decrease and I increase. *)
Example script_initial_state_bounds :
  Forall (fun v => 0 <= v <= 1) (@Script.y0 R _).
Proof.
  unfold Script.y0, Script.S0, Script.E0, Script.I0, Script.R0, Script.decimal.
  cbn. repeat constructor; lra.
Qed.

Example script_initial_trend :
  exists d,
    model Script.y0 0 Script.beta Script.sigma Script.gamma Script.mu = Ok d /\
    component 0 d < 0 /\ 0 < component 2 d.
Proof.
  eexists. split; [apply model_unpack |].
  unfold Script.beta, Script.sigma, Script.gamma, Script.mu,
    Script.S0, Script.E0, Script.I0, Script.R0, Script.decimal. cbn.
  split; lra.
Qed.

Example script_initial_trend_binary64 :
  match model (@Script.y0 float _) 0%float
          Script.beta Script.sigma Script.gamma Script.mu with
  | Ok [dSdt; dEdt; dIdt; dRdt] =>
      (PrimFloat.ltb dSdt 0%float && PrimFloat.ltb 0%float dIdt)%bool
  | _ => false
  end = true.
Proof. vm_compute. reflexivity. Qed.


(** * Further properties of the derivative function *)

(** ** Unpacking the state *)

(** [model] returns exactly on the states of four items; a shorter state
    gets the message for too few values, a longer one the message for too
    many. *)
Lemma model_ok_iff_four {A : Type} `{Num A}
  (y : list A) (t beta sigma gamma mu : A) :
  (exists d, model y t beta sigma gamma mu = Ok d) <-> List.length y = 4%nat.
Proof.
  split.
  - intros [d Hd].
    destruct (model_ok_inv _ _ _ _ _ _ Hd) as (s & e & i & r & -> & _).
    reflexivity.
  - intros Hlen.
    destruct y as [| s [| e [| i [| r [| x y]]]]]; try discriminate Hlen.
    eexists. apply model_unpack.
Qed.

(** ** Rational and real evaluation agree *)

(** Evaluating [model] on rationals and reading the result as reals is the
    same as evaluating it on the reals: the function only adds, subtracts
    and multiplies, and it fails on the same inputs. *)
Theorem model_Q2R (y : list Q) (t beta sigma gamma mu : Q) :
  model (List.map Q2R y) (Q2R t) (Q2R beta) (Q2R sigma) (Q2R gamma) (Q2R mu)
  = result_map (List.map Q2R) (model y t beta sigma gamma mu).
Proof.
  destruct y as [| s [| e [| i [| r [| x y]]]]]; try reflexivity.
  cbn [List.map]. rewrite !model_unpack.
  cbn [result_map List.map add sub mul Num_Q Num_R].
  rewrite !Q2R_minus, !Q2R_mult, !Q2R_plus. reflexivity.
Qed.

(** ** The balance of the population *)

(** At every state the four derivatives add up to mu (1 - N), N being the
    sum of the four components; so along every exact solution, whatever
    the parameters and the initial sum, N(t) = 1 + (N(0) - 1) exp(-mu t). *)
Theorem population_balance (beta sigma gamma mu : R) :
  (forall s e i r t d,
      model [s; e; i; r] t beta sigma gamma mu = Ok d ->
      total d = mu * (1 - total [s; e; i; r])) /\
  (forall T y,
      solves beta sigma gamma mu T y ->
      forall t, 0 <= t <= T ->
        total (y t) = 1 + (total (y 0) - 1) * exp (- mu * t)).
Proof.
  split.
  - intros s e i r t d Hd. exact (model_total Hd).
  - intros T y Hsol t Ht. exact (population_relaxes Hsol Ht).
Qed.

Lemma population_balance_witness :
  solves 0 0 0 3 10 (washout 2 1 1 1 3) /\
  total (washout 2 1 1 1 3 10)
    = 1 + (total (washout 2 1 1 1 3 0) - 1) * exp (- 3 * 10) /\
  (forall d, model [2; 1; 1; 1] 0 0 0 0 3 = Ok d ->
             total d = 3 * (1 - total [2; 1; 1; 1])).
Proof.
  assert (Hsol : solves 0 0 0 3 10 (washout 2 1 1 1 3)) by apply washout_solves.
  destruct (population_balance 0 0 0 3) as [Hd Ht].
  split; [exact Hsol |]. split.
  - apply (Ht 10 (washout 2 1 1 1 3) Hsol 10). lra.
  - intros d. apply Hd.
Defined.

(** The sum of the components is conserved from time 0 to a later time
    exactly when there is no demography (mu = 0) or the sum starts at 1. *)
Theorem population_conserved_iff (beta sigma gamma mu T : R)
  (y : R -> list R) (t : R) :
  solves beta sigma gamma mu T y ->
  0 < t -> t <= T ->
  (total (y t) = total (y 0) <-> mu = 0 \/ total (y 0) = 1).
Proof.
  intros Hsol Hpos HT.
  assert (Ht : 0 <= t <= T) by lra.
  rewrite (population_relaxes Hsol Ht).
  split.
  - intros Heq.
    destruct (Req_dec (total (y 0)) 1) as [H1 | H1]; [now right | left].
    assert (Hexp : exp (- mu * t) = exp 0).
    { rewrite exp_0.
      apply Rmult_eq_reg_l with (r := total (y 0) - 1); [lra |].
      intros Hz. apply H1. lra. }
    apply exp_inv in Hexp. nra.
  - intros [-> | ->].
    + replace (- 0 * t) with 0 by ring. rewrite exp_0. ring.
    + ring.
Qed.

Lemma population_conserved_iff_witness :
  solves 0 1 0 0 10 (relay 2 3 4) /\
  total (relay 2 3 4 10) = total (relay 2 3 4 0).
Proof.
  assert (Hsol : solves 0 1 0 0 10 (relay 2 3 4)) by apply relay_solves.
  split; [exact Hsol |].
  apply (@population_conserved_iff 0 1 0 0 10 (relay 2 3 4) 10 Hsol);
    [lra | lra | left; reflexivity].
Defined.

(** ** Without transmission the first two equations are solved in closed
       form *)

(** With beta = 0, for any rates sigma, gamma, mu (of any sign), along
    every exact solution S(t) = 1 + (S(0) - 1) exp(-mu t) and
    E(t) = E(0) exp(-(sigma + mu) t). *)
Theorem no_transmission_closed_form (sigma gamma mu T : R) (y : R -> list R) :
  solves 0 sigma gamma mu T y ->
  forall t, 0 <= t <= T ->
    component 0 (y t) = 1 + (component 0 (y 0) - 1) * exp (- mu * t) /\
    component 1 (y t) = component 1 (y 0) * exp (- (sigma + mu) * t).
Proof.
  intros Hsol t Ht. split.
  - pose proof (@linear_decay (fun u => component 0 (y u) - 1) mu 0 t) as Hd.
    cbv beta in Hd. rewrite Rminus_0_r in Hd.
    rewrite <- Hd; [ring | lra |].
    intros c Hc. assert (Hc' : 0 <= c <= T) by lra.
    destruct (solves_inv Hsol Hc') as (_ & HS & _).
    apply derivable_pt_lim_value
      with (l := (mu - 0 * component 0 (y c) * component 2 (y c)
                  - mu * component 0 (y c)) - 0); [ring |].
    apply (derivable_pt_lim_minus (fun u => component 0 (y u)) (fun _ => 1));
      [exact HS | apply derivable_pt_lim_cst].
  - pose proof (@linear_decay (fun u => component 1 (y u)) (sigma + mu) 0 t)
      as Hd.
    cbv beta in Hd. rewrite Rminus_0_r in Hd.
    apply Hd; [lra |].
    intros c Hc. assert (Hc' : 0 <= c <= T) by lra.
    destruct (solves_inv Hsol Hc') as (_ & _ & HE & _).
    eapply derivable_pt_lim_value; [| exact HE]. ring.
Qed.

Lemma no_transmission_closed_form_witness :
  solves 0 0 0 3 10 (washout 2 1 1 1 3) /\
  component 0 (washout 2 1 1 1 3 10)
    = 1 + (component 0 (washout 2 1 1 1 3 0) - 1) * exp (- 3 * 10) /\
  component 1 (washout 2 1 1 1 3 10)
    = component 1 (washout 2 1 1 1 3 0) * exp (- (0 + 3) * 10).
Proof.
  assert (Hsol : solves 0 0 0 3 10 (washout 2 1 1 1 3)) by apply washout_solves.
  split; [exact Hsol |].
  apply (@no_transmission_closed_form 0 0 3 10 (washout 2 1 1 1 3) Hsol 10).
  lra.
Defined.

(** ** Equilibria *)

Lemma list4_eq (a b c d a' b' c' d' : R) :
  [a; b; c; d] = [a'; b'; c'; d'] <-> a = a' /\ b = b' /\ c = c' /\ d = d'.
Proof.
  split.
  - intros Heq. injection Heq as -> -> -> ->. repeat split.
  - intros (-> & -> & -> & ->). reflexivity.
Qed.

(** The zeros of [model] for positive beta, sigma, mu: the four equations
    solved one after the other. *)
Lemma model_zero_cases (beta sigma gamma mu s e i r t : R) :
  0 < beta -> 0 < sigma -> 0 <= gamma -> 0 < mu ->
  (model [s; e; i; r] t beta sigma gamma mu = Ok [0; 0; 0; 0] <->
   [s; e; i; r] = equilibrium t \/ [s; e; i; r] = endemic beta sigma gamma mu).
Proof.
  intros Hbeta Hsigma Hgamma Hmu.
  rewrite model_unpack. unfold equilibrium, endemic.
  cbn [add sub mul Num_R].
  set (k := (sigma + mu) * (gamma + mu)).
  assert (Hk : 0 < k) by (unfold k; nra).
  assert (Hbs : 0 < beta * sigma) by nra.
  set (s' := k / (beta * sigma)).
  assert (Hs' : 0 < s') by (unfold s'; apply Rdiv_lt_0_compat; assumption).
  assert (Hks : beta * sigma * s' = k) by (unfold s'; field; lra).
  set (i' := mu * (1 - s') / (beta * s')).
  assert (Hi' : beta * s' * i' = mu * (1 - s'))
    by (unfold i'; field; split; lra).
  split.
  - intros Heq. injection Heq as HS HE HI HR.
    assert (Hr : r = gamma * i / mu) by (field_simplify_eq; lra).
    assert (He : e = (gamma + mu) * i / sigma) by (field_simplify_eq; lra).
    assert (Hse : sigma * e = (gamma + mu) * i) by lra.
    assert (Hprod : i * (beta * sigma * s - k) = 0) by (unfold k; nra).
    apply Rmult_integral in Hprod. destruct Hprod as [Hi | Hs].
    + left. apply list4_eq.
      assert (He0 : e = 0) by nra.
      assert (Hr0 : r = 0) by nra.
      assert (Hs1 : s = 1) by nra.
      auto.
    + right. apply list4_eq.
      assert (Hss : s = s').
      { apply Rmult_eq_reg_l with (r := beta * sigma); lra. }
      assert (Hii : i = i').
      { apply Rmult_eq_reg_l with (r := beta * s'); [| nra].
        rewrite Hi'. subst s. lra. }
      subst s i. auto.
  - intros [Heq | Heq]; apply list4_eq in Heq;
      destruct Heq as (-> & -> & -> & ->); f_equal; apply list4_eq.
    + split; [ring | split; [ring | split; ring]].
    + assert (HE : sigma * ((gamma + mu) * i' / sigma) = (gamma + mu) * i')
        by (field; lra).
      assert (HR : mu * (gamma * i' / mu) = gamma * i') by (field; lra).
      assert (HK : (sigma + mu) * ((gamma + mu) * i' / sigma)
                   = k * i' / sigma) by (unfold k; field; lra).
      assert (HB : beta * s' * i' = k * i' / sigma).
      { rewrite <- Hks. field. lra. }
      split; [lra | split; [lra | split; lra]].
Qed.

(** The endemic state is the disease-free one exactly at the threshold. *)
Lemma endemic_is_disease_free_iff (beta sigma gamma mu t : R) :
  0 < beta -> 0 < sigma -> 0 <= gamma -> 0 < mu ->
  (endemic beta sigma gamma mu = equilibrium t <->
   (sigma + mu) * (gamma + mu) = beta * sigma).
Proof.
  intros Hbeta Hsigma Hgamma Hmu. unfold endemic, equilibrium.
  set (k := (sigma + mu) * (gamma + mu)).
  assert (Hk : 0 < k) by (unfold k; nra).
  assert (Hbs : 0 < beta * sigma) by nra.
  set (s' := k / (beta * sigma)).
  assert (Hks : beta * sigma * s' = k) by (unfold s'; field; lra).
  split.
  - intros Heq. apply list4_eq in Heq. destruct Heq as (Hs1 & _).
    rewrite Hs1 in Hks. lra.
  - intros Heq.
    assert (Hs1 : s' = 1).
    { apply Rmult_eq_reg_l with (r := beta * sigma); lra. }
    rewrite Hs1. apply list4_eq.
    split; [reflexivity |]. split; [field; lra |].
    split; field; lra.
Qed.

(** For positive beta, sigma, mu and non-negative gamma, the states where
    [model] returns the zero vector are the disease-free state
    (1, 0, 0, 0) and the endemic state, and no other; the two are the
    same state exactly when beta sigma = (sigma + mu)(gamma + mu). *)
Theorem model_zero_iff_equilibrium (beta sigma gamma mu s e i r t : R) :
  0 < beta -> 0 < sigma -> 0 <= gamma -> 0 < mu ->
  (model [s; e; i; r] t beta sigma gamma mu = Ok [0; 0; 0; 0] <->
   [s; e; i; r] = equilibrium t \/ [s; e; i; r] = endemic beta sigma gamma mu)
  /\
  (endemic beta sigma gamma mu = equilibrium t <->
   (sigma + mu) * (gamma + mu) = beta * sigma).
Proof.
  intros Hbeta Hsigma Hgamma Hmu. split.
  - exact (@model_zero_cases beta sigma gamma mu s e i r t
             Hbeta Hsigma Hgamma Hmu).
  - exact (@endemic_is_disease_free_iff beta sigma gamma mu t
             Hbeta Hsigma Hgamma Hmu).
Qed.

Lemma script_rates_positive :
  0 < @Script.beta R _ /\ 0 < @Script.sigma R _ /\
  0 <= @Script.gamma R _ /\ 0 < @Script.mu R _.
Proof.
  unfold Script.beta, Script.sigma, Script.gamma, Script.mu, Script.decimal.
  cbn. repeat split; lra.
Qed.

Lemma model_zero_iff_equilibrium_witness :
  model (endemic Script.beta Script.sigma Script.gamma Script.mu) 0
    Script.beta Script.sigma Script.gamma Script.mu = Ok [0; 0; 0; 0] /\
  endemic Script.beta Script.sigma Script.gamma Script.mu <> equilibrium 0.
Proof.
  destruct script_rates_positive as (Hb & Hs & Hg & Hm).
  unfold endemic.
  match goal with
  | |- model [?s; ?e; ?i; ?r] _ _ _ _ _ = _ /\ _ =>
      destruct (@model_zero_iff_equilibrium _ _ _ _ s e i r 0 Hb Hs Hg Hm)
        as [Hzero Hsame]
  end.
  split.
  - apply Hzero. right. reflexivity.
  - intros Heq. apply Hsame in Heq. revert Heq.
    unfold Script.beta, Script.sigma, Script.gamma, Script.mu, Script.decimal.
    cbn. lra.
Defined.

(** The components of the endemic state sum to 1, and they are all
    non-negative exactly when beta sigma >= (sigma + mu)(gamma + mu), that
    is when the basic reproduction number is at least 1. *)
Lemma endemic_admissible_iff (beta sigma gamma mu : R) :
  0 < beta -> 0 < sigma -> 0 <= gamma -> 0 < mu ->
  total (endemic beta sigma gamma mu) = 1 /\
  (Forall (fun v => 0 <= v) (endemic beta sigma gamma mu) <->
   (sigma + mu) * (gamma + mu) <= beta * sigma).
Proof.
  intros Hbeta Hsigma Hgamma Hmu. unfold endemic.
  set (k := (sigma + mu) * (gamma + mu)).
  assert (Hk : 0 < k) by (unfold k; nra).
  assert (Hbs : 0 < beta * sigma) by nra.
  set (s' := k / (beta * sigma)).
  assert (Hs' : 0 < s') by (unfold s'; apply Rdiv_lt_0_compat; assumption).
  assert (Hks : beta * sigma * s' = k) by (unfold s'; field; lra).
  set (i' := mu * (1 - s') / (beta * s')).
  assert (Hi' : beta * s' * i' = mu * (1 - s'))
    by (unfold i'; field; split; lra).
  assert (Hbs' : 0 < beta * s') by nra.
  assert (HE : sigma * ((gamma + mu) * i' / sigma) = (gamma + mu) * i')
    by (field; lra).
  assert (HR : mu * (gamma * i' / mu) = gamma * i') by (field; lra).
  set (e' := (gamma + mu) * i' / sigma) in *.
  set (r' := gamma * i' / mu) in *.
  split.
  - rewrite total_four.
    assert (Hsum : sigma * mu * (e' + i' + r') = k * i') by (unfold k; nra).
    assert (Hki : k * i' = sigma * mu * (1 - s')) by nra.
    apply Rmult_eq_reg_l with (r := sigma * mu); nra.
  - split.
    + intros Hall.
      inversion Hall as [| ? ? _ H1]. inversion H1 as [| ? ? _ H2].
      inversion H2 as [| ? ? Hi _].
      assert (0 <= mu * (1 - s')) by nra. nra.
    + intros Hle.
      assert (Hs1 : s' <= 1) by nra.
      assert (Hi0 : 0 <= i').
      { apply Rmult_le_reg_l with (r := beta * s'); [assumption |]. nra. }
      assert (He0 : 0 <= e').
      { apply Rmult_le_reg_l with (r := sigma); [assumption |]. nra. }
      assert (Hr0 : 0 <= r').
      { apply Rmult_le_reg_l with (r := mu); [assumption |]. nra. }
      apply Forall_cons; [lra |]. apply Forall_cons; [exact He0 |].
      apply Forall_cons; [exact Hi0 |]. apply Forall_cons; [exact Hr0 |].
      apply Forall_nil.
Qed.

Example script_endemic_admissible :
  total (endemic Script.beta Script.sigma Script.gamma Script.mu) = 1 /\
  Forall (fun v => 0 <= v)
    (endemic Script.beta Script.sigma Script.gamma Script.mu).
Proof.
  destruct script_rates_positive as (Hb & Hs & Hg & Hm).
  destruct (@endemic_admissible_iff _ _ _ _ Hb Hs Hg Hm) as [Hsum Hiff].
  split; [exact Hsum |]. apply Hiff.
  unfold Script.beta, Script.sigma, Script.gamma, Script.mu, Script.decimal.
  cbn. lra.
Qed.

(** For positive beta, sigma, mu and non-negative gamma, [model] returns
    the zero vector at some state with non-negative components and a
    positive infectious fraction exactly when
    beta sigma > (sigma + mu)(gamma + mu), that is when the basic
    reproduction number exceeds 1. *)
Theorem endemic_threshold (beta sigma gamma mu : R) :
  0 < beta -> 0 < sigma -> 0 <= gamma -> 0 < mu ->
  ((exists s e i r,
      0 <= s /\ 0 <= e /\ 0 < i /\ 0 <= r /\
      model [s; e; i; r] 0 beta sigma gamma mu = Ok [0; 0; 0; 0]) <->
   (sigma + mu) * (gamma + mu) < beta * sigma).
Proof.
  intros Hbeta Hsigma Hgamma Hmu.
  assert (Hk : 0 < (sigma + mu) * (gamma + mu)) by nra.
  assert (Hbs : 0 < beta * sigma) by nra.
  pose proof (Rdiv_lt_0_compat _ _ Hk Hbs) as Hs'.
  split.
  - intros (s & e & i & r & Hs & He & Hi & Hr & Hzero).
    apply (@model_zero_cases beta sigma gamma mu s e i r 0
             Hbeta Hsigma Hgamma Hmu) in Hzero.
    destruct Hzero as [Hdfe | Hend].
    + unfold equilibrium in Hdfe. apply list4_eq in Hdfe. lra.
    + unfold endemic in Hend. apply list4_eq in Hend.
      destruct Hend as (Hs1 & _ & Hi1 & _).
      set (s' := (sigma + mu) * (gamma + mu) / (beta * sigma)) in *.
      assert (Hbs' : 0 < beta * s') by nra.
      assert (Hprod : beta * s' * i = mu * (1 - s')).
      { rewrite Hi1. field. split; lra. }
      assert (Hlt : s' < 1) by nra.
      assert (Hks : beta * sigma * s' = (sigma + mu) * (gamma + mu))
        by (unfold s'; field; lra).
      nra.
  - intros Hlt.
    destruct (@endemic_admissible_iff beta sigma gamma mu
                Hbeta Hsigma Hgamma Hmu) as [_ Hadm].
    assert (Hall : Forall (fun v => 0 <= v) (endemic beta sigma gamma mu))
      by (apply Hadm; lra).
    unfold endemic in Hall.
    set (s' := (sigma + mu) * (gamma + mu) / (beta * sigma)) in *.
    set (i' := mu * (1 - s') / (beta * s')) in *.
    exists s', ((gamma + mu) * i' / sigma), i', (gamma * i' / mu).
    inversion Hall as [| ? ? Hp0 Hall1]. inversion Hall1 as [| ? ? Hp1 Hall2].
    inversion Hall2 as [| ? ? Hp2 Hall3]. inversion Hall3 as [| ? ? Hp3 _].
    assert (Hks : beta * sigma * s' = (sigma + mu) * (gamma + mu))
      by (unfold s'; field; lra).
    assert (Hs1 : s' < 1) by nra.
    assert (Hi' : 0 < i').
    { unfold i'. apply Rdiv_lt_0_compat; nra. }
    repeat (split; [assumption |]).
    apply (@model_zero_cases beta sigma gamma mu _ _ _ _ 0
             Hbeta Hsigma Hgamma Hmu).
    right. reflexivity.
Qed.

Lemma endemic_threshold_witness :
  exists s e i r,
    0 <= s /\ 0 <= e /\ 0 < i /\ 0 <= r /\
    model [s; e; i; r] 0 Script.beta Script.sigma Script.gamma Script.mu
      = Ok [0; 0; 0; 0].
Proof.
  destruct script_rates_positive as (Hb & Hs & Hg & Hm).
  apply (@endemic_threshold _ _ _ _ Hb Hs Hg Hm).
  unfold Script.beta, Script.sigma, Script.gamma, Script.mu, Script.decimal.
  cbn. lra.
Defined.

(** ** Change of the unit of time *)

Lemma derivable_pt_lim_rescale (f : R -> R) (c x l : R) :
  derivable_pt_lim f (c * x) l ->
  derivable_pt_lim (fun u => f (c * u)) x (c * l).
Proof.
  intros Hf.
  apply derivable_pt_lim_ext with (f := comp f (mult_real_fct c id));
    [reflexivity |].
  apply derivable_pt_lim_value with (l := l * (c * 1)); [ring |].
  apply derivable_pt_lim_comp.
  - apply derivable_pt_lim_scal. apply derivable_pt_lim_id.
  - exact Hf.
Qed.

(** Multiplying the four rates by c > 0 is the same as running the clock c
    times faster: if [y] solves the system on [[0, T]], then [y] read at
    time c t solves the system with rates c beta, c sigma, c gamma, c mu
    on [[0, T / c]]. *)
Theorem time_rescaling (c beta sigma gamma mu T : R) (y : R -> list R) :
  0 < c ->
  solves beta sigma gamma mu T y ->
  solves (c * beta) (c * sigma) (c * gamma) (c * mu) (T / c) (rescale c y).
Proof.
  intros Hc Hsol t Ht.
  assert (Hct : 0 <= c * t <= T).
  { destruct Ht as [Ht0 HtT]. split; [nra |].
    apply Rmult_le_compat_l with (r := c) in HtT; [| lra].
    replace (c * (T / c)) with T in HtT by (field; lra). exact HtT. }
  destruct (solves_inv Hsol Hct) as (Hy & HS & HE & HI & HR).
  unfold rescale. rewrite Hy.
  eexists. split; [apply model_unpack |].
  intros i Hi.
  destruct i as [| [| [| [| i]]]]; cbn [component nth add sub mul Num_R].
  - eapply derivable_pt_lim_value;
      [| exact (derivable_pt_lim_rescale (f := fun u => component 0 (y u)) HS)].
    ring.
  - eapply derivable_pt_lim_value;
      [| exact (derivable_pt_lim_rescale (f := fun u => component 1 (y u)) HE)].
    ring.
  - eapply derivable_pt_lim_value;
      [| exact (derivable_pt_lim_rescale (f := fun u => component 2 (y u)) HI)].
    ring.
  - eapply derivable_pt_lim_value;
      [| exact (derivable_pt_lim_rescale (f := fun u => component 3 (y u)) HR)].
    ring.
  - exfalso. repeat apply PeanoNat.lt_S_n in Hi. inversion Hi.
Qed.

Lemma time_rescaling_witness :
  solves (2 * 0) (2 * 0) (2 * 0) (2 * 3) (10 / 2) (rescale 2 (washout 2 1 1 1 3)).
Proof.
  apply time_rescaling; [lra | apply washout_solves].
Defined.

(** ** Non-negative states stay non-negative *)

(** *** First exit from an open condition *)

Lemma first_exit (P : R -> Prop) (T : R) :
  P 0 ->
  (forall t, 0 <= t <= T -> P t ->
     exists delta, 0 < delta /\ forall s, Rabs (s - t) < delta -> P s) ->
  forall t0, 0 <= t0 <= T -> ~ P t0 ->
  exists tau, 0 < tau <= T /\ ~ P tau /\ forall s, 0 <= s < tau -> P s.
Proof.
  intros P0 Hopen t0 Ht0 Hnot.
  set (E := fun t => 0 <= t <= t0 /\ forall s, 0 <= s <= t -> P s).
  assert (HE0 : E 0).
  { split; [lra |]. intros s Hs. replace s with 0 by lra. exact P0. }
  assert (Hbound : bound E).
  { exists t0. intros t [Ht _]. lra. }
  destruct (completeness E Hbound (ex_intro _ 0 HE0)) as [tau [Hub Hlub]].
  assert (Htau0 : 0 <= tau) by (apply Hub; exact HE0).
  assert (Htaut0 : tau <= t0).
  { apply Hlub. intros t [Ht _]. lra. }
  assert (Hbefore : forall s, 0 <= s < tau -> P s).
  { intros s Hs.
    destruct (classic (exists t, E t /\ s < t)) as [[t [[_ Ht] Hst]] | Hno].
    - apply Ht. lra.
    - exfalso. assert (Hle : tau <= s).
      { apply Hlub. intros t HEt.
        destruct (Rle_or_lt t s) as [Hts | Hts]; [exact Hts |].
        exfalso. apply Hno. now exists t. }
      lra. }
  assert (Hnottau : ~ P tau).
  { intros Ptau.
    destruct (Hopen tau ltac:(lra) Ptau) as [delta [Hdelta Hnear]].
    assert (Hlt : tau < t0).
    { destruct (Req_dec tau t0) as [Heq | Hneq]; [| lra].
      exfalso. apply Hnot. rewrite <- Heq. exact Ptau. }
    set (t1 := Rmin (tau + delta / 2) t0).
    assert (Ht1 : tau < t1 /\ t1 <= tau + delta / 2 /\ t1 <= t0).
    { unfold t1. split; [apply Rmin_glb_lt; lra |].
      split; [apply Rmin_l | apply Rmin_r]. }
    assert (HE1 : E t1).
    { split; [lra |]. intros s Hs.
      destruct (Rlt_or_le s tau) as [Hst | Hst].
      - apply Hbefore. lra.
      - apply Hnear. rewrite Rabs_right by lra. lra. }
    apply Hub in HE1. lra. }
  exists tau. split; [| split; assumption].
  split; [| lra].
  destruct (Req_dec tau 0) as [Heq | Hneq]; [| lra].
  exfalso. apply Hnottau. rewrite Heq. exact P0.
Qed.

Lemma continuity_pt_near (f : R -> R) (t eps : R) :
  continuity_pt f t -> 0 < eps ->
  exists delta, 0 < delta /\
    forall s, Rabs (s - t) < delta -> Rabs (f s - f t) < eps.
Proof.
  intros Hc Heps. destruct (Hc eps Heps) as [alp [Halp Hnear]].
  exists alp. split; [exact Halp |]. intros s Hs.
  destruct (Req_dec t s) as [<- | Hneq].
  - replace (f t - f t) with 0 by ring. rewrite Rabs_R0. exact Heps.
  - apply Hnear. split; [split; [exact I | exact Hneq] | exact Hs].
Qed.

Lemma positive_open (f : R -> R) (t : R) :
  continuity_pt f t -> 0 < f t ->
  exists delta, 0 < delta /\ forall s, Rabs (s - t) < delta -> 0 < f s.
Proof.
  intros Hc Hpos.
  destruct (continuity_pt_near Hc Hpos) as [delta [Hdelta Hnear]].
  exists delta. split; [exact Hdelta |]. intros s Hs.
  specialize (Hnear s Hs). apply Rabs_def2 in Hnear. lra.
Qed.

Lemma left_limit_nonneg (f : R -> R) (tau : R) :
  continuity_pt f tau -> 0 < tau ->
  (forall s, 0 <= s < tau -> 0 < f s) ->
  0 <= f tau.
Proof.
  intros Hc Htau Hbefore.
  destruct (Rle_or_lt 0 (f tau)) as [Hle | Hneg]; [exact Hle | exfalso].
  assert (Heps : 0 < - f tau) by lra.
  destruct (continuity_pt_near Hc Heps) as [delta [Hdelta Hnear]].
  set (s := Rmax 0 (tau - delta / 2)).
  assert (Hs : 0 <= s < tau /\ tau - delta / 2 <= s).
  { unfold s. split; [split; [apply Rmax_l | apply Rmax_lub_lt; lra] |].
    apply Rmax_r. }
  assert (Hd : Rabs (s - tau) < delta).
  { rewrite Rabs_left by lra. lra. }
  specialize (Hnear s Hd). apply Rabs_def2 in Hnear.
  pose proof (Hbefore s (proj1 Hs)). lra.
Qed.

Lemma left_derivative_nonpos (f : R -> R) (tau l : R) :
  derivable_pt_lim f tau l -> 0 < tau ->
  (forall s, 0 <= s < tau -> 0 < f s) ->
  f tau <= 0 ->
  l <= 0.
Proof.
  intros Hd Htau Hbefore Hzero.
  destruct (Rle_or_lt l 0) as [Hle | Hpos]; [exact Hle | exfalso].
  destruct (Hd l Hpos) as [delta Hq].
  set (h := - Rmin (delta / 2) (tau / 2)).
  pose proof (cond_pos delta) as Hdelta.
  assert (Hh : - (delta / 2) <= h /\ - (tau / 2) <= h /\ h < 0).
  { unfold h. pose proof (Rmin_l (delta / 2) (tau / 2)).
    pose proof (Rmin_r (delta / 2) (tau / 2)).
    assert (0 < Rmin (delta / 2) (tau / 2)) by (apply Rmin_glb_lt; lra).
    lra. }
  assert (Hsmall : Rabs h < delta) by (rewrite Rabs_left; lra).
  specialize (Hq h ltac:(lra) Hsmall). apply Rabs_def2 in Hq.
  assert (Hf : 0 < f (tau + h)) by (apply Hbefore; lra).
  assert (Hinv : / h < 0) by (apply Rinv_lt_0_compat; lra).
  unfold Rdiv in Hq. nra.
Qed.

Lemma derivable_pt_lim_continuity (f : R -> R) (x l : R) :
  derivable_pt_lim f x l -> continuity_pt f x.
Proof.
  intros Hd. apply derivable_continuous_pt. exists l. exact Hd.
Qed.

(** *** A barrier argument for two coupled quantities *)

(** Two quantities that start positive stay positive, provided that each
    one has a positive derivative whenever it is about to leave the
    positive side while the other is still non-negative. *)
Lemma strict_barrier (f g f' g' : R -> R) (T : R) :
  (forall c, 0 <= c <= T -> derivable_pt_lim f c (f' c)) ->
  (forall c, 0 <= c <= T -> derivable_pt_lim g c (g' c)) ->
  0 < f 0 -> 0 < g 0 ->
  (forall c, 0 < c <= T -> f c <= 0 -> 0 <= g c -> 0 < f' c) ->
  (forall c, 0 < c <= T -> g c <= 0 -> 0 <= f c -> 0 < g' c) ->
  forall t, 0 <= t <= T -> 0 < f t /\ 0 < g t.
Proof.
  intros Hf Hg f0 g0 Hbf Hbg t Ht.
  destruct (classic (0 < f t /\ 0 < g t)) as [Hpos | Hnot];
    [exact Hpos | exfalso].
  destruct (@first_exit (fun c => 0 < f c /\ 0 < g c) T (conj f0 g0))
    with (t0 := t) as [tau [Htau [Hntau Hbefore]]]; [| exact Ht | exact Hnot |].
  { intros c Hc [Hfc Hgc].
    destruct (positive_open (derivable_pt_lim_continuity (Hf c Hc)) Hfc)
      as [d1 [Hd1 Hn1]].
    destruct (positive_open (derivable_pt_lim_continuity (Hg c Hc)) Hgc)
      as [d2 [Hd2 Hn2]].
    exists (Rmin d1 d2). split; [apply Rmin_glb_lt; assumption |].
    intros s Hs. split.
    - apply Hn1. apply Rlt_le_trans with (1 := Hs). apply Rmin_l.
    - apply Hn2. apply Rlt_le_trans with (1 := Hs). apply Rmin_r. }
  assert (Hc : 0 <= tau <= T) by lra.
  assert (Hftau : 0 <= f tau).
  { apply left_limit_nonneg;
      [exact (derivable_pt_lim_continuity (Hf tau Hc)) | lra |].
    intros s Hs. apply (Hbefore s Hs). }
  assert (Hgtau : 0 <= g tau).
  { apply left_limit_nonneg;
      [exact (derivable_pt_lim_continuity (Hg tau Hc)) | lra |].
    intros s Hs. apply (Hbefore s Hs). }
  destruct (Rle_or_lt (f tau) 0) as [Hfz | Hfp].
  - assert (Hder : 0 < f' tau) by (apply Hbf; [lra | exact Hfz | exact Hgtau]).
    assert (Hle : f' tau <= 0).
    { apply left_derivative_nonpos with (f := f) (tau := tau);
        [apply Hf; exact Hc | lra | | exact Hfz].
      intros s Hs. apply (Hbefore s Hs). }
    lra.
  - destruct (Rle_or_lt (g tau) 0) as [Hgz | Hgp].
    + assert (Hder : 0 < g' tau)
        by (apply Hbg; [lra | exact Hgz | exact Hftau]).
      assert (Hle : g' tau <= 0).
      { apply left_derivative_nonpos with (f := g) (tau := tau);
          [apply Hg; exact Hc | lra | | exact Hgz].
        intros s Hs. apply (Hbefore s Hs). }
      lra.
    + apply Hntau. split; assumption.
Qed.

Lemma bounded_above_on (f : R -> R) (T : R) :
  0 <= T ->
  (forall c, 0 <= c <= T -> continuity_pt f c) ->
  exists M, 0 <= M /\ forall c, 0 <= c <= T -> f c <= M.
Proof.
  intros HT Hc.
  destruct (continuity_ab_maj f 0 T HT Hc) as [Mx [Hmax _]].
  exists (Rmax 0 (f Mx)). split; [apply Rmax_l |].
  intros c Hcc. apply Rle_trans with (f Mx); [now apply Hmax | apply Rmax_r].
Qed.

Lemma bounded_below_on (f : R -> R) (T : R) :
  0 <= T ->
  (forall c, 0 <= c <= T -> continuity_pt f c) ->
  exists M, 0 <= M /\ forall c, 0 <= c <= T -> - M <= f c.
Proof.
  intros HT Hc.
  destruct (continuity_ab_min f 0 T HT Hc) as [mx [Hmin _]].
  exists (Rmax 0 (- f mx)). split; [apply Rmax_l |].
  intros c Hcc. pose proof (Hmin c Hcc). pose proof (Rmax_r 0 (- f mx)). lra.
Qed.

Lemma eps_limit (a b : R) :
  0 < b -> (forall eps, 0 < eps -> 0 < a + eps * b) -> 0 <= a.
Proof.
  intros Hb Heps.
  destruct (Rle_or_lt 0 a) as [Hle | Hneg]; [exact Hle | exfalso].
  assert (He : 0 < - a / (2 * b)).
  { apply Rdiv_lt_0_compat; lra. }
  specialize (Heps _ He).
  replace (a + - a / (2 * b) * b) with (a / 2) in Heps by (field; lra).
  lra.
Qed.

(** The perturbation [eps exp(L c)] added to a component. *)
Lemma perturbed_derivative (f : R -> R) (eps L c l : R) :
  derivable_pt_lim f c l ->
  derivable_pt_lim (fun u => f u + eps * exp (L * u)) c
    (l + eps * (L * exp (L * c))).
Proof.
  intros Hf.
  apply (derivable_pt_lim_plus f (fun u => eps * exp (L * u))); [exact Hf |].
  apply affine_exp_curve with (a := 0) (c := eps) (k := L).
  - intros u. ring.
  - reflexivity.
Qed.

(** *** The four compartments *)

Lemma solves_continuity (beta sigma gamma mu T : R) (y : R -> list R)
  (i : nat) (c : R) :
  solves beta sigma gamma mu T y -> (i < 4)%nat -> 0 <= c <= T ->
  continuity_pt (fun u => component i (y u)) c.
Proof.
  intros Hsol Hi Hc.
  destruct (solves_inv Hsol Hc) as (_ & HS & HE & HI & HR).
  destruct i as [| [| [| [| i]]]].
  - exact (derivable_pt_lim_continuity HS).
  - exact (derivable_pt_lim_continuity HE).
  - exact (derivable_pt_lim_continuity HI).
  - exact (derivable_pt_lim_continuity HR).
  - exfalso. repeat apply PeanoNat.lt_S_n in Hi. inversion Hi.
Qed.

(** S cannot become negative: at S = 0 its derivative is the birth rate. *)
Lemma susceptible_nonneg (beta sigma gamma mu T : R) (y : R -> list R) :
  0 <= beta -> 0 <= mu ->
  solves beta sigma gamma mu T y ->
  0 <= component 0 (y 0) ->
  forall t, 0 <= t <= T -> 0 <= component 0 (y t).
Proof.
  intros Hbeta Hmu Hsol HS0 t Ht.
  assert (HT : 0 <= T) by lra.
  destruct (@bounded_below_on (fun u => component 2 (y u)) T HT)
    as [M [HM HI]].
  { intros c Hc. apply (solves_continuity (i := 2) Hsol); [| exact Hc].
    repeat constructor. }
  set (L := beta * M + 1).
  apply eps_limit with (b := exp (L * t)); [apply exp_pos |].
  intros eps Heps.
  set (f := fun u => component 0 (y u) + eps * exp (L * u)).
  set (f' := fun c =>
    (mu - beta * component 0 (y c) * component 2 (y c)
     - mu * component 0 (y c)) + eps * (L * exp (L * c))).
  assert (Hder : forall c, 0 <= c <= T -> derivable_pt_lim f c (f' c)).
  { intros c Hc. destruct (solves_inv Hsol Hc) as (_ & HS & _).
    apply (perturbed_derivative (f := fun u => component 0 (y u))). exact HS. }
  assert (Hf0 : 0 < f 0).
  { unfold f. rewrite Rmult_0_r, exp_0. lra. }
  assert (Hbar : forall c, 0 < c <= T -> f c <= 0 -> 0 <= f c -> 0 < f' c).
  { intros c Hc Hle Hge. unfold f, f' in *.
    pose proof (exp_pos (L * c)) as Hexp.
    assert (HX : 0 < eps * exp (L * c)) by (apply Rmult_lt_0_compat; lra).
    set (X := eps * exp (L * c)) in *.
    assert (HIc : - M <= component 2 (y c)) by (apply HI; lra).
    set (Sc := component 0 (y c)) in *. set (Ic := component 2 (y c)) in *.
    assert (HSc : Sc = - X) by lra.
    assert (Hk : 1 <= beta * Ic + L) by (unfold L; nra).
    replace (mu - beta * Sc * Ic - mu * Sc + eps * (L * exp (L * c)))
      with (mu + X * (beta * Ic + L) + mu * X)
      by (rewrite HSc; unfold X; ring).
    assert (0 < X * (beta * Ic + L)) by (apply Rmult_lt_0_compat; lra).
    assert (0 <= mu * X) by (apply Rmult_le_pos; lra).
    lra. }
  exact (proj1 (@strict_barrier f f f' f' T Hder Hder Hf0 Hf0 Hbar Hbar t Ht)).
Qed.

(** E and I cannot become negative while S is non-negative: each one is
    fed by the other. *)
Lemma exposed_infectious_nonneg (beta sigma gamma mu T : R)
  (y : R -> list R) :
  0 <= beta -> 0 <= sigma -> 0 <= gamma -> 0 <= mu ->
  solves beta sigma gamma mu T y ->
  (forall c, 0 <= c <= T -> 0 <= component 0 (y c)) ->
  0 <= component 1 (y 0) -> 0 <= component 2 (y 0) ->
  forall t, 0 <= t <= T ->
    0 <= component 1 (y t) /\ 0 <= component 2 (y t).
Proof.
  intros Hbeta Hsigma Hgamma Hmu Hsol HSpos HE0 HI0 t Ht.
  assert (HT : 0 <= T) by lra.
  destruct (@bounded_above_on (fun u => component 0 (y u)) T HT)
    as [M [HM HSM]].
  { intros c Hc. apply (solves_continuity (i := 0) Hsol); [| exact Hc].
    repeat constructor. }
  set (L := beta * M + sigma + 1).
  assert (Hboth : forall eps, 0 < eps ->
            0 < component 1 (y t) + eps * exp (L * t) /\
            0 < component 2 (y t) + eps * exp (L * t)).
  { intros eps Heps.
    set (f := fun u => component 1 (y u) + eps * exp (L * u)).
    set (g := fun u => component 2 (y u) + eps * exp (L * u)).
    set (f' := fun c =>
      (beta * component 0 (y c) * component 2 (y c)
       - (sigma + mu) * component 1 (y c)) + eps * (L * exp (L * c))).
    set (g' := fun c =>
      (sigma * component 1 (y c) - (gamma + mu) * component 2 (y c))
      + eps * (L * exp (L * c))).
    assert (Hf : forall c, 0 <= c <= T -> derivable_pt_lim f c (f' c)).
    { intros c Hc. destruct (solves_inv Hsol Hc) as (_ & _ & HE & _).
      apply (perturbed_derivative (f := fun u => component 1 (y u))).
      exact HE. }
    assert (Hg : forall c, 0 <= c <= T -> derivable_pt_lim g c (g' c)).
    { intros c Hc. destruct (solves_inv Hsol Hc) as (_ & _ & _ & HI & _).
      apply (perturbed_derivative (f := fun u => component 2 (y u))).
      exact HI. }
    assert (Hf0 : 0 < f 0) by (unfold f; rewrite Rmult_0_r, exp_0; lra).
    assert (Hg0 : 0 < g 0) by (unfold g; rewrite Rmult_0_r, exp_0; lra).
    apply (@strict_barrier f g f' g' T Hf Hg Hf0 Hg0); [| | exact Ht].
    - intros c Hc Hle Hge. unfold f, g, f' in *.
      pose proof (exp_pos (L * c)) as Hexp.
      assert (HX : 0 < eps * exp (L * c)) by (apply Rmult_lt_0_compat; lra).
      replace (eps * (L * exp (L * c))) with (L * (eps * exp (L * c)))
        by ring.
      set (X := eps * exp (L * c)) in *.
      assert (HS0 : 0 <= component 0 (y c)) by (apply HSpos; lra).
      assert (HS1 : component 0 (y c) <= M) by (apply HSM; lra).
      set (Sc := component 0 (y c)) in *.
      set (Ec := component 1 (y c)) in *.
      set (Ic := component 2 (y c)) in *.
      assert (H1 : 0 <= beta * Sc * (Ic + X)).
      { apply Rmult_le_pos; [apply Rmult_le_pos; assumption | lra]. }
      assert (H2 : beta * Sc * X <= beta * M * X).
      { apply Rmult_le_compat_r; [lra |].
        apply Rmult_le_compat_l; assumption. }
      assert (H3 : 0 <= (sigma + mu) * (- Ec)).
      { apply Rmult_le_pos; lra. }
      assert (H4 : 0 < (sigma + 1) * X) by (apply Rmult_lt_0_compat; lra).
      unfold L. nra.
    - intros c Hc Hle Hge. unfold f, g, g' in *.
      pose proof (exp_pos (L * c)) as Hexp.
      assert (HX : 0 < eps * exp (L * c)) by (apply Rmult_lt_0_compat; lra).
      replace (eps * (L * exp (L * c))) with (L * (eps * exp (L * c)))
        by ring.
      set (X := eps * exp (L * c)) in *.
      set (Ec := component 1 (y c)) in *.
      set (Ic := component 2 (y c)) in *.
      assert (H1 : 0 <= sigma * (Ec + X)) by (apply Rmult_le_pos; lra).
      assert (H3 : 0 <= (gamma + mu) * (- Ic)) by (apply Rmult_le_pos; lra).
      assert (H4 : 0 < (beta * M + 1) * X).
      { apply Rmult_lt_0_compat; [| lra].
        assert (0 <= beta * M) by (apply Rmult_le_pos; assumption). lra. }
      unfold L. nra. }
  split.
  - apply eps_limit with (b := exp (L * t)); [apply exp_pos |].
    intros eps Heps. apply (Hboth eps Heps).
  - apply eps_limit with (b := exp (L * t)); [apply exp_pos |].
    intros eps Heps. apply (Hboth eps Heps).
Qed.

Lemma forall4_components (P : R -> Prop) (l : list R) :
  l = [component 0 l; component 1 l; component 2 l; component 3 l] ->
  (Forall P l <->
   P (component 0 l) /\ P (component 1 l) /\ P (component 2 l)
   /\ P (component 3 l)).
Proof.
  intros Hl. split.
  - intros Hall. rewrite Hl in Hall.
    inversion Hall as [| ? ? Hp0 Hall1]. inversion Hall1 as [| ? ? Hp1 Hall2].
    inversion Hall2 as [| ? ? Hp2 Hall3]. inversion Hall3 as [| ? ? Hp3 _].
    auto.
  - intros (Hp0 & Hp1 & Hp2 & Hp3). rewrite Hl.
    repeat (apply Forall_cons; [assumption |]). apply Forall_nil.
Qed.

(** The three steps put together: S, then E and I, then R. *)
Lemma nonnegative_orthant (beta sigma gamma mu T : R)
  (y : R -> list R) :
  0 <= beta -> 0 <= sigma -> 0 <= gamma -> 0 <= mu ->
  solves beta sigma gamma mu T y ->
  Forall (fun v => 0 <= v) (y 0) ->
  forall t, 0 <= t <= T -> Forall (fun v => 0 <= v) (y t).
Proof.
  intros Hbeta Hsigma Hgamma Hmu Hsol Hpos t Ht.
  assert (H0 : 0 <= 0 <= T) by lra.
  destruct (solves_inv Hsol H0) as [Hy0 _].
  destruct (solves_inv Hsol Ht) as [Hyt _].
  apply (forall4_components (fun v => 0 <= v) Hy0) in Hpos.
  destruct Hpos as (HS0 & HE0 & HI0 & HR0).
  assert (HS : forall c, 0 <= c <= T -> 0 <= component 0 (y c)).
  { apply (susceptible_nonneg Hbeta Hmu Hsol HS0). }
  assert (HEI : forall c, 0 <= c <= T ->
            0 <= component 1 (y c) /\ 0 <= component 2 (y c)).
  { apply (exposed_infectious_nonneg Hbeta Hsigma Hgamma Hmu Hsol HS HE0 HI0). }
  assert (HR : forall c, 0 <= c <= T -> 0 <= component 3 (y c)).
  { apply inflow_nonneg
      with (f := fun u => component 3 (y u))
           (g := fun u => gamma * component 2 (y u)) (k := mu).
    - intros c Hc. destruct (solves_inv Hsol Hc) as (_ & _ & _ & _ & HRc).
      exact HRc.
    - intros c Hc. apply Rmult_le_pos; [assumption | apply (HEI c Hc)].
    - exact HR0. }
  apply (forall4_components (fun v => 0 <= v) Hyt).
  split; [apply HS; exact Ht |]. split; [apply (HEI t Ht) |].
  split; [apply (HEI t Ht) | apply HR; exact Ht].
Qed.

(** For non-negative rates, an exact solution that starts from a state
    with non-negative components has non-negative components at every
    later time. *)
Theorem nonnegative_states_invariant (beta sigma gamma mu T : R)
  (y : R -> list R) :
  0 <= beta -> 0 <= sigma -> 0 <= gamma -> 0 <= mu ->
  solves beta sigma gamma mu T y ->
  Forall (fun v => 0 <= v) (y 0) ->
  forall t, 0 <= t <= T -> Forall (fun v => 0 <= v) (y t).
Proof.
  exact (@nonnegative_orthant beta sigma gamma mu T y).
Qed.

Lemma nonnegative_states_invariant_witness :
  solves Script.beta Script.sigma Script.gamma Script.mu 200
    (washout (1/2) 0 0 (1/2) Script.mu) /\
  Forall (fun v => 0 <= v) (washout (1/2) 0 0 (1/2) Script.mu 0) /\
  Forall (fun v => 0 <= v) (washout (1/2) 0 0 (1/2) Script.mu 200).
Proof.
  destruct script_rates_positive as (Hb & Hs & Hg & Hm).
  assert (Hsol : solves Script.beta Script.sigma Script.gamma Script.mu 200
            (washout (1/2) 0 0 (1/2) Script.mu))
    by apply washout_no_infection_solves.
  assert (Hpos : Forall (fun v => 0 <= v) (washout (1/2) 0 0 (1/2) Script.mu 0)).
  { unfold washout. rewrite Rmult_0_r, exp_0.
    repeat (apply Forall_cons; [lra |]). apply Forall_nil. }
  split; [exact Hsol |]. split; [exact Hpos |].
  apply nonnegative_states_invariant with (beta := Script.beta) (sigma := Script.sigma)
      (gamma := Script.gamma) (mu := Script.mu) (T := 200);
    try lra; try assumption.
Defined.

(** If moreover the components sum to at most 1 at the start, every
    component stays between 0 and 1. *)
Theorem unit_interval_invariant (beta sigma gamma mu T : R)
  (y : R -> list R) :
  0 <= beta -> 0 <= sigma -> 0 <= gamma -> 0 <= mu ->
  solves beta sigma gamma mu T y ->
  Forall (fun v => 0 <= v) (y 0) -> total (y 0) <= 1 ->
  forall t, 0 <= t <= T -> Forall (fun v => 0 <= v <= 1) (y t).
Proof.
  intros Hbeta Hsigma Hgamma Hmu Hsol Hpos Hsum t Ht.
  pose proof (nonnegative_orthant Hbeta Hsigma Hgamma Hmu Hsol Hpos Ht)
    as Hnn.
  destruct (solves_inv Hsol Ht) as [Hyt _].
  apply (forall4_components (fun v => 0 <= v) Hyt) in Hnn.
  destruct Hnn as (HS & HE & HI & HR).
  assert (Htot : total (y t) <= 1).
  { rewrite (population_relaxes Hsol Ht).
    pose proof (exp_pos (- mu * t)) as Hexp. nra. }
  rewrite (solves_total Hsol Ht) in Htot. unfold population in Htot.
  apply (forall4_components (fun v => 0 <= v <= 1) Hyt).
  repeat split; lra.
Qed.

Lemma unit_interval_invariant_witness :
  solves Script.beta Script.sigma Script.gamma Script.mu 200
    (washout (1/2) 0 0 (1/2) Script.mu) /\
  Forall (fun v => 0 <= v <= 1) (washout (1/2) 0 0 (1/2) Script.mu 200).
Proof.
  destruct script_rates_positive as (Hb & Hs & Hg & Hm).
  assert (Hsol : solves Script.beta Script.sigma Script.gamma Script.mu 200
            (washout (1/2) 0 0 (1/2) Script.mu))
    by apply washout_no_infection_solves.
  split; [exact Hsol |].
  apply unit_interval_invariant with (beta := Script.beta) (sigma := Script.sigma)
      (gamma := Script.gamma) (mu := Script.mu) (T := 200);
    try lra; try assumption.
  - unfold washout. rewrite Rmult_0_r, exp_0.
    repeat (apply Forall_cons; [lra |]). apply Forall_nil.
  - unfold washout. rewrite total_four, Rmult_0_r, exp_0. lra.
Defined.

(** The susceptible fraction never exceeds 1 if it starts at most 1, even
    when the sum of the components starts above 1. *)
Theorem susceptible_at_most_one (beta sigma gamma mu T : R)
  (y : R -> list R) :
  0 <= beta -> 0 <= sigma -> 0 <= gamma -> 0 <= mu ->
  solves beta sigma gamma mu T y ->
  Forall (fun v => 0 <= v) (y 0) -> component 0 (y 0) <= 1 ->
  forall t, 0 <= t <= T -> 0 <= component 0 (y t) <= 1.
Proof.
  intros Hbeta Hsigma Hgamma Hmu Hsol Hpos HS0 t Ht.
  assert (Hnn : forall c, 0 <= c <= T ->
            0 <= component 0 (y c) /\ 0 <= component 2 (y c)).
  { intros c Hc.
    pose proof (nonnegative_orthant Hbeta Hsigma Hgamma Hmu Hsol
                  Hpos Hc) as Hall.
    destruct (solves_inv Hsol Hc) as [Hyc _].
    apply (forall4_components (fun v => 0 <= v) Hyc) in Hall. tauto. }
  split; [apply (Hnn t Ht) |].
  assert (Hgap : 0 <= 1 - component 0 (y t)); [| lra].
  apply inflow_nonneg
    with (f := fun u => 1 - component 0 (y u))
         (g := fun u => beta * component 0 (y u) * component 2 (y u))
         (k := mu) (T := T); [| | lra | exact Ht].
  - intros c Hc. destruct (solves_inv Hsol Hc) as (_ & HS & _).
    apply derivable_pt_lim_value
      with (l := 0 - (mu - beta * component 0 (y c) * component 2 (y c)
                      - mu * component 0 (y c))); [ring |].
    apply (derivable_pt_lim_minus (fun _ => 1) (fun u => component 0 (y u)));
      [apply derivable_pt_lim_cst | exact HS].
  - intros c Hc. destruct (Hnn c Hc) as [HSc HIc].
    apply Rmult_le_pos; [apply Rmult_le_pos |]; assumption.
Qed.

Lemma susceptible_at_most_one_witness :
  solves Script.beta Script.sigma Script.gamma Script.mu 200
    (washout (1/2) 0 0 1 Script.mu) /\
  1 < total (washout (1/2) 0 0 1 Script.mu 0) /\
  0 <= component 0 (washout (1/2) 0 0 1 Script.mu 200) <= 1.
Proof.
  destruct script_rates_positive as (Hb & Hs & Hg & Hm).
  assert (Hsol : solves Script.beta Script.sigma Script.gamma Script.mu 200
            (washout (1/2) 0 0 1 Script.mu))
    by apply washout_no_infection_solves.
  split; [exact Hsol |]. split.
  - unfold washout. rewrite total_four, Rmult_0_r, exp_0. lra.
  - apply susceptible_at_most_one with (beta := Script.beta) (sigma := Script.sigma)
      (gamma := Script.gamma) (mu := Script.mu) (T := 200);
      try lra; try assumption.
    + unfold washout. rewrite Rmult_0_r, exp_0.
      repeat (apply Forall_cons; [lra |]). apply Forall_nil.
    + unfold washout. cbn. rewrite Rmult_0_r, exp_0. lra.
Defined.

(** ** The trajectory is determined by its initial state *)

Lemma cross_bound (a x y A : R) :
  - A <= a <= A -> a * x * y <= A * (x * x + y * y) / 2.
Proof.
  intros [Hlo Hhi].
  pose proof (Rle_0_sqr (x - y)) as Hm. pose proof (Rle_0_sqr (x + y)) as Hp.
  unfold Rsqr in Hm, Hp.
  destruct (Rle_or_lt 0 (x * y)) as [Hxy | Hxy].
  - assert (a * (x * y) <= A * (x * y)) by (apply Rmult_le_compat_r; lra).
    nra.
  - assert (0 <= (A + a) * (- (x * y))) by (apply Rmult_le_pos; lra).
    nra.
Qed.

Lemma square_bound (a x A : R) : - A <= a <= A -> a * x * x <= A * (x * x).
Proof.
  intros [Hlo Hhi]. pose proof (Rle_0_sqr x) as Hx. unfold Rsqr in Hx.
  replace (a * x * x) with (a * (x * x)) by ring.
  apply Rmult_le_compat_r; lra.
Qed.

Lemma abs_bounds (a : R) : - Rabs a <= a <= Rabs a.
Proof.
  split; [| apply Rle_abs].
  pose proof (Rle_abs (- a)) as H. rewrite Rabs_Ropp in H. lra.
Qed.

Lemma square_difference_derivative (f g : R -> R) (x lf lg : R) :
  derivable_pt_lim f x lf -> derivable_pt_lim g x lg ->
  derivable_pt_lim (fun u => (f u - g u) * (f u - g u)) x
    (2 * (f x - g x) * (lf - lg)).
Proof.
  intros Hf Hg.
  pose proof (derivable_pt_lim_minus f g x lf lg Hf Hg) as Hd.
  apply derivable_pt_lim_value
    with (l := (lf - lg) * (f x - g x) + (f x - g x) * (lf - lg)); [ring |].
  exact (derivable_pt_lim_mult (fun u => f u - g u) (fun u => f u - g u)
           x _ _ Hd Hd).
Qed.

(** The squared distance between two curves, component by component. *)
Lemma coefficient_bounded (a : R) (f : R -> R) (T : R) :
  0 <= T ->
  (forall c, 0 <= c <= T -> continuity_pt f c) ->
  exists A, 0 <= A /\ forall c, 0 <= c <= T -> - A <= a * f c <= A.
Proof.
  intros HT Hc.
  destruct (bounded_above_on HT Hc) as [M1 [HM1 Hup]].
  destruct (bounded_below_on HT Hc) as [M2 [HM2 Hlo]].
  exists (Rabs a * (M1 + M2)). split.
  - apply Rmult_le_pos; [apply Rabs_pos | lra].
  - intros c Hcc. specialize (Hup c Hcc). specialize (Hlo c Hcc).
    pose proof (abs_bounds a) as [Ha1 Ha2]. pose proof (Rabs_pos a) as Ha.
    split; nra.
Qed.

Lemma energy_bound (a1 a2 sigma gamma mu dS dE dI dR A1 A2 m : R) :
  - A1 <= a1 <= A1 -> - A2 <= a2 <= A2 ->
  - m <= sigma <= m -> - m <= gamma <= m -> - m <= mu <= m ->
  - m <= sigma + mu <= m -> - m <= gamma + mu <= m ->
  2 * dS * (- (a1 * dI + a2 * dS) - mu * dS)
  + 2 * dE * ((a1 * dI + a2 * dS) - (sigma + mu) * dE)
  + 2 * dI * (sigma * dE - (gamma + mu) * dI)
  + 2 * dR * (gamma * dI - mu * dR)
  <= (4 * (A1 + A2) + 4 * m) * (dS * dS + dE * dE + dI * dI + dR * dR).
Proof.
  intros Ha1 Ha2 Hs Hg Hm Hsm Hgm.
  assert (Ha1' : - A1 <= - a1 <= A1) by lra.
  assert (Ha2' : - A2 <= - a2 <= A2) by lra.
  assert (Hm' : - m <= - mu <= m) by lra.
  assert (Hsm' : - m <= - (sigma + mu) <= m) by lra.
  assert (Hgm' : - m <= - (gamma + mu) <= m) by lra.
  pose proof (cross_bound dI dS Ha1') as T1.
  pose proof (square_bound dS Ha2') as T2.
  pose proof (square_bound dS Hm') as T3.
  pose proof (cross_bound dI dE Ha1) as T4.
  pose proof (cross_bound dS dE Ha2) as T5.
  pose proof (square_bound dE Hsm') as T6.
  pose proof (cross_bound dE dI Hs) as T7.
  pose proof (square_bound dI Hgm') as T8.
  pose proof (cross_bound dI dR Hg) as T9.
  pose proof (square_bound dR Hm') as T10.
  assert (HA1 : 0 <= A1) by lra. assert (HA2 : 0 <= A2) by lra.
  assert (Hm0 : 0 <= m) by lra.
  pose proof (Rle_0_sqr dS) as QS. pose proof (Rle_0_sqr dE) as QE.
  pose proof (Rle_0_sqr dI) as QI. pose proof (Rle_0_sqr dR) as QR.
  unfold Rsqr in QS, QE, QI, QR.
  set (sS := dS * dS) in *. set (sE := dE * dE) in *.
  set (sI := dI * dI) in *. set (sR := dR * dR) in *.
  assert (P1 : 0 <= A1 * sS) by (apply Rmult_le_pos; assumption).
  assert (P2 : 0 <= A1 * sE) by (apply Rmult_le_pos; assumption).
  assert (P3 : 0 <= A1 * sI) by (apply Rmult_le_pos; assumption).
  assert (P4 : 0 <= A1 * sR) by (apply Rmult_le_pos; assumption).
  assert (P5 : 0 <= A2 * sS) by (apply Rmult_le_pos; assumption).
  assert (P6 : 0 <= A2 * sE) by (apply Rmult_le_pos; assumption).
  assert (P7 : 0 <= A2 * sI) by (apply Rmult_le_pos; assumption).
  assert (P8 : 0 <= A2 * sR) by (apply Rmult_le_pos; assumption).
  assert (P9 : 0 <= m * sS) by (apply Rmult_le_pos; assumption).
  assert (P10 : 0 <= m * sE) by (apply Rmult_le_pos; assumption).
  assert (P11 : 0 <= m * sI) by (apply Rmult_le_pos; assumption).
  assert (P12 : 0 <= m * sR) by (apply Rmult_le_pos; assumption).
  replace (2 * dS * (- (a1 * dI + a2 * dS) - mu * dS)
           + 2 * dE * ((a1 * dI + a2 * dS) - (sigma + mu) * dE)
           + 2 * dI * (sigma * dE - (gamma + mu) * dI)
           + 2 * dR * (gamma * dI - mu * dR))
    with (2 * (- a1 * dI * dS + - a2 * dS * dS + - mu * dS * dS
               + a1 * dI * dE + a2 * dS * dE + - (sigma + mu) * dE * dE
               + sigma * dE * dI + - (gamma + mu) * dI * dI
               + gamma * dI * dR + - mu * dR * dR))
    by (unfold sS, sE, sI, sR; ring).
  lra.
Qed.

(** The squared distance V between two solutions satisfies V' <= K V and
    starts at 0, so it stays 0. *)
Lemma energy_uniqueness (beta sigma gamma mu T : R) (y1 y2 : R -> list R) :
  solves beta sigma gamma mu T y1 ->
  solves beta sigma gamma mu T y2 ->
  y1 0 = y2 0 ->
  forall t, 0 <= t <= T -> y1 t = y2 t.
Proof.
  intros Hsol1 Hsol2 Hstart t Ht.
  assert (HT : 0 <= T) by lra.
  destruct (@coefficient_bounded beta (fun u => component 0 (y1 u)) T HT)
    as [A1 [HA1 Hb1]].
  { intros c Hc. apply (solves_continuity (i := 0) Hsol1); [| exact Hc].
    repeat constructor. }
  destruct (@coefficient_bounded beta (fun u => component 2 (y2 u)) T HT)
    as [A2 [HA2 Hb2]].
  { intros c Hc. apply (solves_continuity (i := 2) Hsol2); [| exact Hc].
    repeat constructor. }
  set (m := Rabs sigma + Rabs gamma + Rabs mu).
  pose proof (abs_bounds sigma) as Hs. pose proof (abs_bounds gamma) as Hg.
  pose proof (abs_bounds mu) as Hm.
  pose proof (Rabs_pos sigma) as Hs0. pose proof (Rabs_pos gamma) as Hg0.
  pose proof (Rabs_pos mu) as Hm0.
  set (K := 4 * (A1 + A2) + 4 * m).
  set (d := fun j u => component j (y1 u) - component j (y2 u)).
  set (V := fun u => d 0%nat u * d 0%nat u + d 1%nat u * d 1%nat u
                     + d 2%nat u * d 2%nat u + d 3%nat u * d 3%nat u).
  set (V' := fun c =>
    2 * d 0%nat c * (- (beta * component 0 (y1 c) * d 2%nat c
                        + beta * component 2 (y2 c) * d 0%nat c)
                     - mu * d 0%nat c)
    + 2 * d 1%nat c * ((beta * component 0 (y1 c) * d 2%nat c
                        + beta * component 2 (y2 c) * d 0%nat c)
                       - (sigma + mu) * d 1%nat c)
    + 2 * d 2%nat c * (sigma * d 1%nat c - (gamma + mu) * d 2%nat c)
    + 2 * d 3%nat c * (gamma * d 2%nat c - mu * d 3%nat c)).
  assert (HV : forall c, 0 <= c <= T -> derivable_pt_lim V c (V' c)).
  { intros c Hc.
    destruct (solves_inv Hsol1 Hc) as (_ & HS1 & HE1 & HI1 & HR1).
    destruct (solves_inv Hsol2 Hc) as (_ & HS2 & HE2 & HI2 & HR2).
    pose proof (square_difference_derivative HS1 HS2) as DS.
    pose proof (square_difference_derivative HE1 HE2) as DE.
    pose proof (square_difference_derivative HI1 HI2) as DI.
    pose proof (square_difference_derivative HR1 HR2) as DR.
    eapply derivable_pt_lim_value;
      [| exact (derivable_pt_lim_plus _ _ _ _ _
                 (derivable_pt_lim_plus _ _ _ _ _
                   (derivable_pt_lim_plus _ _ _ _ _ DS DE) DI) DR)].
    unfold V', d. ring. }
  assert (HVK : forall c, 0 <= c <= T -> V' c + - K * V c <= 0).
  { intros c Hc. unfold V', V, K.
    pose proof (@energy_bound
      (beta * component 0 (y1 c)) (beta * component 2 (y2 c))
      sigma gamma mu (d 0%nat c) (d 1%nat c) (d 2%nat c) (d 3%nat c)
      A1 A2 m (Hb1 c Hc) (Hb2 c Hc)) as Hen.
    assert (Hsm : - m <= sigma + mu <= m) by (unfold m; lra).
    assert (Hgm : - m <= gamma + mu <= m) by (unfold m; lra).
    specialize (Hen ltac:(unfold m; lra) ltac:(unfold m; lra)
                    ltac:(unfold m; lra) Hsm Hgm).
    lra. }
  assert (HW : V t * exp (- K * t) <= V 0 * exp (- K * 0)).
  { apply nonpos_derivative_le
      with (f := fun u => V u * exp (- K * u))
           (f' := fun c => (V' c + - K * V c) * exp (- K * c)); [lra | |].
    - intros c Hc. apply integrating_factor. apply HV. lra.
    - intros c Hc. pose proof (exp_pos (- K * c)) as Hexp.
      assert (Hle : V' c + - K * V c <= 0) by (apply HVK; lra).
      nra. }
  assert (HV0 : V 0 = 0).
  { unfold V, d. rewrite Hstart. ring. }
  rewrite HV0, Rmult_0_l in HW.
  pose proof (exp_pos (- K * t)) as Hexp.
  assert (HVt : V t <= 0) by nra.
  unfold V in HVt.
  pose proof (Rle_0_sqr (d 0%nat t)) as Q0. pose proof (Rle_0_sqr (d 1%nat t)) as Q1.
  pose proof (Rle_0_sqr (d 2%nat t)) as Q2. pose proof (Rle_0_sqr (d 3%nat t)) as Q3.
  unfold Rsqr in Q0, Q1, Q2, Q3.
  assert (Z0 : d 0%nat t = 0) by nra. assert (Z1 : d 1%nat t = 0) by nra.
  assert (Z2 : d 2%nat t = 0) by nra. assert (Z3 : d 3%nat t = 0) by nra.
  unfold d in Z0, Z1, Z2, Z3.
  destruct (solves_inv Hsol1 Ht) as [Hy1 _].
  destruct (solves_inv Hsol2 Ht) as [Hy2 _].
  rewrite Hy1, Hy2. apply list4_eq. repeat split; lra.
Qed.

(** Two exact solutions of the system, for the same rates of any sign,
    that start from the same state are the same at every time: the curve
    the script asks the integrator for is unique. *)
Theorem solution_unique (beta sigma gamma mu T : R) (y1 y2 : R -> list R) :
  solves beta sigma gamma mu T y1 ->
  solves beta sigma gamma mu T y2 ->
  y1 0 = y2 0 ->
  forall t, 0 <= t <= T -> y1 t = y2 t.
Proof.
  exact (@energy_uniqueness beta sigma gamma mu T y1 y2).
Qed.

Lemma solution_unique_witness :
  solves Script.beta Script.sigma Script.gamma Script.mu 200 equilibrium /\
  solves Script.beta Script.sigma Script.gamma Script.mu 200
    (washout 1 0 0 0 Script.mu) /\
  equilibrium 200 = washout 1 0 0 0 Script.mu 200.
Proof.
  assert (H1 : solves Script.beta Script.sigma Script.gamma Script.mu 200
                 equilibrium) by apply equilibrium_solves.
  assert (H2 : solves Script.beta Script.sigma Script.gamma Script.mu 200
                 (washout 1 0 0 0 Script.mu))
    by apply washout_no_infection_solves.
  split; [exact H1 |]. split; [exact H2 |].
  apply (@solution_unique _ _ _ _ 200 equilibrium _ H1 H2); [| lra].
  unfold equilibrium, washout. rewrite Rmult_0_r, exp_0.
  apply list4_eq. repeat split; ring.
Defined.

(** A state where [model] returns the zero vector is a solution that
    stands still. *)
Lemma zero_derivative_solves (beta sigma gamma mu T s e i r : R) :
  model [s; e; i; r] 0 beta sigma gamma mu = Ok [0; 0; 0; 0] ->
  solves beta sigma gamma mu T (fun _ => [s; e; i; r]).
Proof.
  intros Hzero t _. exists [0; 0; 0; 0]. split.
  - rewrite <- Hzero. apply model_time_invariant.
  - intros j Hj. apply constant_curve with (a := component j [s; e; i; r]).
    + reflexivity.
    + destruct j as [| [| [| [| j]]]]; try reflexivity.
      exfalso. repeat apply PeanoNat.lt_S_n in Hj. inversion Hj.
Qed.

(** An exact solution that starts at a state where [model] returns the
    zero vector never leaves it. *)
Theorem equilibrium_stationary (beta sigma gamma mu T : R) (y : R -> list R) :
  solves beta sigma gamma mu T y ->
  model (y 0) 0 beta sigma gamma mu = Ok [0; 0; 0; 0] ->
  forall t, 0 <= t <= T -> y t = y 0.
Proof.
  intros Hsol Hzero t Ht.
  destruct (model_ok_inv _ _ _ _ _ _ Hzero) as (s & e & i & r & Hy0 & _).
  rewrite Hy0 in Hzero.
  pose proof (@zero_derivative_solves beta sigma gamma mu T s e i r Hzero)
    as Hconst.
  rewrite Hy0.
  apply (@energy_uniqueness beta sigma gamma mu T y (fun _ => [s; e; i; r])
           Hsol Hconst Hy0 t Ht).
Qed.

Lemma equilibrium_stationary_witness :
  solves Script.beta Script.sigma Script.gamma Script.mu 200
    (washout 1 0 0 0 Script.mu) /\
  washout 1 0 0 0 Script.mu 200 = washout 1 0 0 0 Script.mu 0.
Proof.
  assert (Hsol : solves Script.beta Script.sigma Script.gamma Script.mu 200
                   (washout 1 0 0 0 Script.mu))
    by apply washout_no_infection_solves.
  split; [exact Hsol |].
  apply (@equilibrium_stationary _ _ _ _ 200 _ Hsol); [| lra].
  unfold washout. rewrite Rmult_0_r, exp_0. rewrite model_unpack.
  cbn [add sub mul Num_R]. f_equal. apply list4_eq. repeat split; ring.
Defined.

(** The model never creates infection: an exact solution that starts with
    E = I = 0 keeps E = I = 0, while S relaxes to 1 and R decays, both at
    rate mu, whatever beta, sigma and gamma. *)
Theorem infection_free_invariant (beta sigma gamma mu T : R)
  (y : R -> list R) :
  solves beta sigma gamma mu T y ->
  component 1 (y 0) = 0 -> component 2 (y 0) = 0 ->
  forall t, 0 <= t <= T ->
    y t = [ 1 + (component 0 (y 0) - 1) * exp (- mu * t); 0; 0;
            component 3 (y 0) * exp (- mu * t) ].
Proof.
  intros Hsol HE0 HI0 t Ht.
  assert (H0 : 0 <= 0 <= T) by lra.
  destruct (solves_inv Hsol H0) as [Hy0 _].
  pose proof (@washout_no_infection_solves (component 0 (y 0))
                (component 3 (y 0)) beta sigma gamma mu T) as Hw.
  assert (Hstart : y 0 = washout (component 0 (y 0)) 0 0 (component 3 (y 0))
                           mu 0).
  { rewrite Hy0 at 1. rewrite HE0, HI0. unfold washout.
    rewrite Rmult_0_r, exp_0. apply list4_eq. repeat split; ring. }
  rewrite (@energy_uniqueness beta sigma gamma mu T y _ Hsol Hw Hstart t Ht).
  unfold washout. apply list4_eq. repeat split; ring.
Qed.

Lemma infection_free_invariant_witness :
  solves 0 1 0 0 10 (relay 2 0 0) /\
  relay 2 0 0 10 = [ 1 + (2 - 1) * exp (- 0 * 10); 0; 0; 0 * exp (- 0 * 10) ].
Proof.
  assert (Hsol : solves 0 1 0 0 10 (relay 2 0 0)) by apply relay_solves.
  split; [exact Hsol |].
  assert (Hc : forall j, component j (relay 2 0 0 0)
                         = nth j [2; 0 * exp (- 0); 0 + 0 * (1 - exp (- 0)); 0] 0)
    by reflexivity.
  pose proof (@infection_free_invariant 0 1 0 0 10 (relay 2 0 0) Hsol) as Hinv.
  rewrite !Hc in Hinv. cbn [nth] in Hinv.
  apply Hinv; [ring | ring | lra].
Defined.
